(** * Verification of the pti-gpu hot-function aggregator and of the
      PTI view record protocol

    The first part embeds [samples/cl_hot_functions/cl_api_collector.h]:
    the [Function] statistics record with its comparison operators,
    [ClApiCollector::AddFunctionTime], sequentially and under two
    concurrent callers, and [ClApiCollector::PrintFunctionsTable].
    [uint64_t] values are modelled as [N] with the wrap-around modulo
    [2^64] written out, and [std::map<std::string, Function>] as a
    [gmap string Function].

    The second part is about the record iterator and the registration
    of buffer callbacks exercised by [sdk/test/main_zegemm_fixture.cc].

    All definitions come first; the lemmas and the theorems follow in
    the same order. *)

From Stdlib Require Import NArith Lia.
From Stdlib.Strings Require Import Byte.
From stdpp Require Import gmap strings list fin_maps sorting.

Local Open Scope N_scope.

(** ** Unsigned 64-bit arithmetic *)

Definition u64_modulus : N := 2 ^ 64.

Definition wrap64 (n : N) : N := n mod u64_modulus.

Definition is_u64 (n : N) : Prop := n < u64_modulus.

(** ** [struct Function] *)

Record Function : Type := mkFunction {
  total_time : N;
  min_time : N;
  max_time : N;
  call_count : N
}.

(** [bool operator>(const Function& r) const] *)
Definition Function_gt (l r : Function) : bool :=
  if negb (total_time l =? total_time r) then
    total_time r <? total_time l
  else
    call_count r <? call_count l.

(** [bool operator!=(const Function& r) const] *)
Definition Function_ne (l r : Function) : bool :=
  if total_time l =? total_time r then
    negb (call_count l =? call_count r)
  else
    true.

(** ** [ClApiCollector::AddFunctionTime] *)

(** [function_info_map_.count(name)] *)
Definition map_count (m : gmap string Function) (name : string) : N :=
  match m !! name with
  | Some _ => 1
  | None => 0
  end.

(** [function_info_map_[name]] read as an rvalue: a missing key is
    value-initialised. *)
Definition map_at (m : gmap string Function) (name : string) : Function :=
  default (mkFunction 0 0 0 0) (m !! name).

(** The statements of the [else] branch, applied in order to the
    referenced entry. *)
Definition accumulate (function : Function) (time : N) : Function :=
  let total := wrap64 (total_time function + time) in
  let mn := if time <? min_time function then time else min_time function in
  let mx := if max_time function <? time then time else max_time function in
  mkFunction total mn mx (wrap64 (call_count function + 1)).

Definition AddFunctionTime (name : string) (time : N)
    (m : gmap string Function) : gmap string Function :=
  if map_count m name =? 0 then
    <[name := mkFunction time time time 1]> m
  else
    <[name := accumulate (map_at m name) time]> m.

(** A history of calls, oldest first, replayed on the empty map of a
    freshly created collector. *)
Definition record_calls (calls : list (string * N)) : gmap string Function :=
  foldl (λ m c, AddFunctionTime c.1 c.2 m) ∅ calls.

(** The elapsed times of the calls made under one name, oldest first. *)
Definition times_of (name : string) (calls : list (string * N)) : list N :=
  (filter (λ c, c.1 = name) calls).*2.

Definition sum_times (ts : list N) : N := foldr N.add 0 ts.

(** What the map is expected to hold for a name called with times [ts]. *)
Definition summary (ts : list N) : option Function :=
  match ts with
  | [] => None
  | t :: ts' =>
      Some (mkFunction (wrap64 (sum_times ts)) (foldl N.min t ts')
              (foldl N.max t ts') (wrap64 (N.of_nat (length ts))))
  end.

(** The invariant the data model states for an entry. *)
Definition stat_invariant (f : Function) : Prop :=
  1 ≤ call_count f ∧
  min_time f ≤ total_time f / call_count f ∧
  total_time f / call_count f ≤ max_time f.

(** ** [ClApiCollector::PrintFunctionsTable] *)

(** [begin()] to [end()] of the [std::map]: the entries in ascending
    order of their keys. *)
Definition map_entries (m : gmap string Function) : list (string * Function) :=
  merge_sort (λ a b : string * Function, String.le a.1 b.1) (map_to_list m).

(** Modelled from the spec: [utils::Comparator] is declared in
    [cl_utils.h], which is not among the sources at hand.  The
    presentation order is by [total_time] descending, ties broken by
    [call_count] descending: the two comparison operators of [Function]
    are applied to the statistics.  What the comparator answers for two
    entries whose statistics are not unequal is left to the parameter
    [tie], which receives the two names. *)
Definition Comparator (tie : string → string → bool)
    (left right : string * Function) : bool :=
  if Function_ne left.2 right.2 then Function_gt left.2 right.2
  else tie left.1 right.1.

(** Insertion into [std::set<std::pair<std::string, Function>,
    utils::Comparator>], kept as the list of its elements in iteration
    order; an element equivalent to one already present is not
    inserted. *)
Fixpoint set_insert (comp : string * Function → string * Function → bool)
    (x : string * Function) (s : list (string * Function))
    : list (string * Function) :=
  match s with
  | [] => [x]
  | y :: s' =>
      if comp y x then y :: set_insert comp x s'
      else if comp x y then x :: y :: s'
      else y :: s'
  end.

(** The range constructor of [sorted_list]. *)
Definition sorted_list (tie : string → string → bool)
    (m : gmap string Function) : list (string * Function) :=
  foldl (λ s e, set_insert (Comparator tie) e s) [] (map_entries m).

Definition kFunctionLength : N := 10.

(** The first loop: [total_duration] and [max_name_length]. *)
Definition total_duration_of (sorted : list (string * Function)) : N :=
  foldl (λ total value, wrap64 (total + total_time value.2)) 0 sorted.

Definition max_name_length_of (sorted : list (string * Function)) : N :=
  foldl (λ len value,
           if len <? N.of_nat (String.length value.1)
           then N.of_nat (String.length value.1) else len)
    kFunctionLength sorted.

(** One line of the table.  [percent_duration] is the single-precision
    value of [100.0f * duration / total_duration]; the row keeps its two
    integer operands. *)
Record Row : Type := mkRow {
  row_function : string;
  row_calls : N;
  row_duration : N;
  row_total_duration : N;
  row_avg_duration : N;
  row_min_duration : N;
  row_max_duration : N
}.

(** What a call of [PrintFunctionsTable] does: return before printing,
    print the header and all rows, or print the header and some rows and
    then divide by a zero [call_count]. *)
Inductive Printed : Type :=
  | NothingPrinted
  | TablePrinted (max_name_length : N) (rows : list Row)
  | DivisionByZero (max_name_length : N) (rows : list Row).

(** The second loop; the flag tells whether it stopped at the integer
    division [duration / call_count] with [call_count == 0]. *)
Fixpoint print_rows (total_duration : N) (sorted : list (string * Function))
    : list Row * bool :=
  match sorted with
  | [] => ([], false)
  | value :: rest =>
      let call_count := call_count value.2 in
      let duration := total_time value.2 in
      if call_count =? 0 then ([], true)
      else
        let avg_duration := duration / call_count in
        let row := mkRow value.1 call_count duration total_duration
                     avg_duration (min_time value.2) (max_time value.2) in
        let '(rows, stopped) := print_rows total_duration rest in
        (row :: rows, stopped)
  end.

Definition PrintFunctionsTable (tie : string → string → bool)
    (function_info_map : gmap string Function) : Printed :=
  let sorted := sorted_list tie function_info_map in
  let total_duration := total_duration_of sorted in
  let max_name_length := max_name_length_of sorted in
  if total_duration =? 0 then NothingPrinted
  else
    match print_rows total_duration sorted with
    | (rows, false) => TablePrinted max_name_length rows
    | (rows, true) => DivisionByZero max_name_length rows
    end.

(** The rows that reached the output. *)
Definition printed_rows (p : Printed) : list Row :=
  match p with
  | NothingPrinted => []
  | TablePrinted _ rows => rows
  | DivisionByZero _ rows => rows
  end.

(** The presentation order on statistics: [total_time] descending, ties
    broken by [call_count] descending. *)
Definition presented_before (total calls total' calls' : N) : Prop :=
  total' < total ∨ (total = total' ∧ calls' ≤ calls).

Definition entry_before (a b : string * Function) : Prop :=
  presented_before (total_time a.2) (call_count a.2)
    (total_time b.2) (call_count b.2).

Definition row_before (r r' : Row) : Prop :=
  presented_before (row_duration r) (row_calls r)
    (row_duration r') (row_calls r').

(** [std::string::operator>], a possible tie-break on the names. *)
Definition string_gt (a b : string) : bool := String.ltb b a.

(** ** Concurrent callers of [AddFunctionTime]

    Two threads call [AddFunctionTime] on one collector.  A call is
    split into the steps a scheduler can interleave: the constructor of
    the [lock_guard] (which blocks while [lock_] is held), the reads of
    the body ([count(name)] and the fields of the entry), its writes,
    and the destructor of the guard. *)

Inductive tid : Type := T1 | T2.

Inductive pc : Type :=
  | Outside
  | Locked
  | HasRead (seen : option Function)
  | Written.

Record thread : Type := mkThread {
  pending : list (string * N);
  at_pc : pc
}.

Record system : Type := mkSystem {
  function_info_map_ : gmap string Function;
  lock_ : option tid;
  thread1 : thread;
  thread2 : thread
}.

Definition thread_of (i : tid) (st : system) : thread :=
  match i with T1 => thread1 st | T2 => thread2 st end.

Definition with_thread (i : tid) (t : thread) (st : system) : system :=
  match i with
  | T1 => mkSystem (function_info_map_ st) (lock_ st) t (thread2 st)
  | T2 => mkSystem (function_info_map_ st) (lock_ st) (thread1 st) t
  end.

Definition with_lock (l : option tid) (st : system) : system :=
  mkSystem (function_info_map_ st) l (thread1 st) (thread2 st).

Definition with_map (m : gmap string Function) (st : system) : system :=
  mkSystem m (lock_ st) (thread1 st) (thread2 st).

(** The writes of the body, from what its reads have seen. *)
Definition write_back (name : string) (time : N) (seen : option Function)
    (m : gmap string Function) : gmap string Function :=
  match seen with
  | None => <[name := mkFunction time time time 1]> m
  | Some function => <[name := accumulate function time]> m
  end.

(** One step of thread [i]; [None] when the thread cannot move (it has
    no call left, or it waits for the mutex). *)
Definition step (i : tid) (st : system) : option system :=
  let t := thread_of i st in
  match at_pc t, pending t with
  | Outside, _ :: _ =>
      match lock_ st with
      | Some _ => None
      | None =>
          Some (with_thread i (mkThread (pending t) Locked)
                  (with_lock (Some i) st))
      end
  | Locked, (name, _) :: _ =>
      Some (with_thread i
              (mkThread (pending t)
                 (HasRead (function_info_map_ st !! name))) st)
  | HasRead seen, (name, time) :: rest =>
      Some (with_thread i (mkThread rest Written)
              (with_map (write_back name time seen (function_info_map_ st))
                 st))
  | Written, _ =>
      Some (with_thread i (mkThread (pending t) Outside) (with_lock None st))
  | _, _ => None
  end.

(** A schedule names the thread that takes each step. *)
Fixpoint run_schedule (schedule : list tid) (st : system) : option system :=
  match schedule with
  | [] => Some st
  | i :: schedule' =>
      match step i st with
      | Some st' => run_schedule schedule' st'
      | None => None
      end
  end.

Definition initial (calls1 calls2 : list (string * N)) : system :=
  mkSystem ∅ None (mkThread calls1 Outside) (mkThread calls2 Outside).

Definition thread_finished (t : thread) : bool :=
  match pending t, at_pc t with
  | [], Outside => true
  | _, _ => false
  end.

Definition finished (st : system) : bool :=
  thread_finished (thread1 st) && thread_finished (thread2 st).

(** What holds in every state the two threads can reach from
    [initial calls1 calls2]: the mutex is held exactly by a thread that
    is inside the function ([lock_invariant]), what a thread has read is
    still what the map holds ([read_invariant]), and the map is the
    replay of the calls written so far ([history_invariant]). *)

(** Whether a thread is between the constructor and the destructor of
    its guard. *)
Definition inside (t : thread) : bool :=
  match at_pc t with
  | Outside => false
  | _ => true
  end.

Definition lock_invariant (st : system) : Prop :=
  match lock_ st with
  | None => inside (thread1 st) = false ∧ inside (thread2 st) = false
  | Some T1 => inside (thread1 st) = true ∧ inside (thread2 st) = false
  | Some T2 => inside (thread1 st) = false ∧ inside (thread2 st) = true
  end.

Definition reads_current (m : gmap string Function) (t : thread) : Prop :=
  match at_pc t with
  | Locked => pending t ≠ []
  | HasRead seen =>
      match pending t with
      | (name, _) :: _ => seen = m !! name
      | [] => False
      end
  | _ => True
  end.

Definition read_invariant (st : system) : Prop :=
  reads_current (function_info_map_ st) (thread1 st) ∧
  reads_current (function_info_map_ st) (thread2 st).

Definition history_invariant (calls1 calls2 : list (string * N))
    (st : system) : Prop :=
  ∃ history,
    function_info_map_ st = record_calls history ∧
    history ++ pending (thread1 st) ++ pending (thread2 st)
      ≡ₚ calls1 ++ calls2.

Definition system_invariant (calls1 calls2 : list (string * N))
    (st : system) : Prop :=
  lock_invariant st ∧ read_invariant st ∧ history_invariant calls1 calls2 st.

(** * The PTI view interface

    [sdk/test/main_zegemm_fixture.cc] holds the tests of
    [ptiViewGetNextRecord] and [ptiViewSetCallbacks]; the two functions,
    the record types of [pti/pti_view.h] and the buffer builder of
    [utils/test_helpers.h] are not among the sources at hand.  They are
    modelled from the specification, the loops of the tests from the
    source. *)

Inductive pti_result : Type :=
  | PTI_SUCCESS
  | PTI_STATUS_END_OF_BUFFER
  | PTI_ERROR_BAD_ARGUMENT
  | PTI_ERROR_INTERNAL.

Inductive pti_view_kind : Type :=
  | PTI_VIEW_INVALID
  | PTI_VIEW_DEVICE_GPU_KERNEL
  | PTI_VIEW_DEVICE_GPU_MEM_COPY
  | PTI_VIEW_DEVICE_GPU_MEM_FILL
  | PTI_VIEW_EXTERNAL_CORRELATION
  | PTI_VIEW_COLLECTION_OVERHEAD.

Definition all_view_kinds : list pti_view_kind :=
  [PTI_VIEW_INVALID; PTI_VIEW_DEVICE_GPU_KERNEL; PTI_VIEW_DEVICE_GPU_MEM_COPY;
   PTI_VIEW_DEVICE_GPU_MEM_FILL; PTI_VIEW_EXTERNAL_CORRELATION;
   PTI_VIEW_COLLECTION_OVERHEAD].

Definition view_kind_eqb (a b : pti_view_kind) : bool :=
  match a, b with
  | PTI_VIEW_INVALID, PTI_VIEW_INVALID
  | PTI_VIEW_DEVICE_GPU_KERNEL, PTI_VIEW_DEVICE_GPU_KERNEL
  | PTI_VIEW_DEVICE_GPU_MEM_COPY, PTI_VIEW_DEVICE_GPU_MEM_COPY
  | PTI_VIEW_DEVICE_GPU_MEM_FILL, PTI_VIEW_DEVICE_GPU_MEM_FILL
  | PTI_VIEW_EXTERNAL_CORRELATION, PTI_VIEW_EXTERNAL_CORRELATION
  | PTI_VIEW_COLLECTION_OVERHEAD, PTI_VIEW_COLLECTION_OVERHEAD => true
  | _, _ => false
  end.

(** ** Record layout

    The declarations of [pti/pti_view.h] enter as a parameter: the size
    of the common header, how the kind and [struct_size] are read from
    and written to the bytes of a header (an unrecognised kind reads as
    [None]), and [sizeof] of the record type of every kind. *)
Record layout : Type := mkLayout {
  header_size : N;
  read_header : list byte → option pti_view_kind * N;
  write_header : pti_view_kind → N → list byte;
  sizeof_record : pti_view_kind → N
}.

Definition u32_modulus : N := 2 ^ 32.

Record layout_ok (L : layout) : Prop := mkLayoutOk {
  header_size_pos : 0 < header_size L;
  write_header_length :
    ∀ kind size, length (write_header L kind size) = N.to_nat (header_size L);
  read_write_header :
    ∀ kind size rest, size < u32_modulus →
      read_header L (write_header L kind size ++ rest) = (Some kind, size);
  sizeof_record_header : ∀ kind, header_size L ≤ sizeof_record L kind;
  sizeof_record_u32 : ∀ kind, sizeof_record L kind < u32_modulus
}.

(** The largest record size across all kinds. *)
Definition max_record_size (L : layout) : N :=
  foldr (λ kind size, N.max (sizeof_record L kind) size) 0 all_view_kinds.

(** ** The record iterator *)

(** A view of a record inside the buffer: where its header starts, and
    the kind and [struct_size] read from it. *)
Record record_view : Type := mkView {
  view_offset : N;
  view_kind : pti_view_kind;
  view_size : N
}.

(** What the third argument of [ptiViewGetNextRecord] points to: the
    cursor of the iteration and the record returned last. *)
Record iterator : Type := mkIterator {
  cursor : N;
  current_record : option record_view
}.

Definition iterator_start : iterator := mkIterator 0 None.

(** Modelled from the spec: [ptiViewGetNextRecord(buffer, size, record)]
    is not among the sources at hand.  A null pointer is [None].  The
    result is the status and what [record] points to afterwards.  The
    destination is checked first, then a null buffer is empty; at
    [cursor = size] the iteration ends; otherwise the common header at
    the cursor is read, and a header that does not fit, an unrecognised
    kind, a [struct_size] below the header size or a [struct_size]
    reaching past [size] is an internal error that leaves the cursor
    where it is; a good record is returned as a view at the old cursor
    and the cursor advances by [struct_size]. *)
Definition ptiViewGetNextRecord (L : layout) (buffer : option (list byte))
    (size : N) (record : option iterator) : pti_result * option iterator :=
  match record with
  | None => (PTI_ERROR_BAD_ARGUMENT, None)
  | Some it =>
      match buffer with
      | None => (PTI_STATUS_END_OF_BUFFER, Some it)
      | Some bytes =>
          if cursor it =? size then (PTI_STATUS_END_OF_BUFFER, Some it)
          else if size <? cursor it + header_size L then
            (PTI_ERROR_INTERNAL, Some it)
          else
            match read_header L (drop (N.to_nat (cursor it)) bytes) with
            | (None, _) => (PTI_ERROR_INTERNAL, Some it)
            | (Some kind, struct_size) =>
                if (struct_size <? header_size L)
                   || (size <? cursor it + struct_size)
                then (PTI_ERROR_INTERNAL, Some it)
                else
                  (PTI_SUCCESS,
                   Some (mkIterator (cursor it + struct_size)
                           (Some (mkView (cursor it) kind struct_size))))
            end
      end
  end.

(** [n] further calls on the same arguments: the statuses returned, and
    what [record] points to in the end. *)
Fixpoint call_again (n : nat) (L : layout) (buffer : option (list byte))
    (size : N) (record : option iterator)
    : list pti_result * option iterator :=
  match n with
  | O => ([], record)
  | S n' =>
      let '(status, record') := ptiViewGetNextRecord L buffer size record in
      let '(statuses, record'') := call_again n' L buffer size record' in
      (status :: statuses, record'')
  end.

(** Draining: calls are repeated while they succeed.  The result is the
    views returned, the status that ended the loop and the iterator
    after it; [None] when [fuel] calls were not enough. *)
Fixpoint drain (fuel : nat) (L : layout) (buffer : option (list byte))
    (size : N) (it : iterator)
    : option (list record_view * pti_result * iterator) :=
  match fuel with
  | O => None
  | S fuel' =>
      match ptiViewGetNextRecord L buffer size (Some it) with
      | (PTI_SUCCESS, Some it') =>
          match current_record it', drain fuel' L buffer size it' with
          | Some view, Some (views, status, it'') =>
              Some (view :: views, status, it'')
          | _, _ => None
          end
      | (status, _) => Some ([], status, it)
      end
  end.

(** ** The test buffer *)

(** Modelled from the spec: [CreateFullBuffer] and [RecordInserts] of
    [utils/test_helpers.h] are not among the sources at hand.  A record
    of a kind is its header, with [struct_size = sizeof] of the record
    type, followed by a zeroed body; the buffer holds the requested
    numbers of records, in order, and nothing else. *)
Definition record_bytes (L : layout) (kind : pti_view_kind) : list byte :=
  write_header L kind (sizeof_record L kind) ++
  replicate (N.to_nat (sizeof_record L kind - header_size L)) x00.

(** Modelled from the spec: the bytes of a sequence of records, one
    after the other. *)
Definition encode_records (L : layout) (kinds : list pti_view_kind)
    : list byte :=
  concat (record_bytes L <$> kinds).

(** Modelled from the spec: [RecordInserts<T, n>] of
    [utils/test_helpers.h] asks for [n] records of the kind of [T]. *)
Definition RecordInserts (kind : pti_view_kind) (n : nat)
    : list pti_view_kind :=
  replicate n kind.

(** Modelled from the spec: [CreateFullBuffer<...>()] of
    [utils/test_helpers.h] returns the buffer filled with the records
    asked for, in the order of its arguments. *)
Definition CreateFullBuffer (L : layout)
    (inserts : list (list pti_view_kind)) : list byte :=
  encode_records L (concat inserts).

(** [GetNextRecordTestSuite]: the constants and the buffer of the
    fixture. *)
Definition kNumMemRecs : nat := 15.
Definition kNumExtRecs : nat := 100.
Definition kNumKernelRecs : nat := 3.
Definition kNumOhRecs : nat := 1.
Definition kTotalRecs : nat :=
  2 * kNumOhRecs + 2 * kNumMemRecs + kNumKernelRecs + kNumExtRecs.

Definition test_inserts : list (list pti_view_kind) :=
  [RecordInserts PTI_VIEW_COLLECTION_OVERHEAD kNumOhRecs;
   RecordInserts PTI_VIEW_DEVICE_GPU_MEM_COPY kNumMemRecs;
   RecordInserts PTI_VIEW_DEVICE_GPU_MEM_FILL kNumMemRecs;
   RecordInserts PTI_VIEW_EXTERNAL_CORRELATION kNumExtRecs;
   RecordInserts PTI_VIEW_DEVICE_GPU_KERNEL kNumKernelRecs;
   RecordInserts PTI_VIEW_COLLECTION_OVERHEAD kNumOhRecs].

Definition test_buf_ (L : layout) : list byte := CreateFullBuffer L test_inserts.

(** [test_buf_.size()] *)
Definition buffer_size (bytes : list byte) : N := N.of_nat (length bytes).

(** ** [TEST_F(GetNextRecordTestSuite, RegularParseRecordsTest)] *)

Record parse_counters : Type := mkCounters {
  total_records : N;
  number_of_memory_copies : N;
  number_of_kernel : N;
  number_of_overhead : N
}.

(** How the body of the test ends: [FAIL()] inside the loop, or the
    loop is left and the expectations are evaluated on the counters. *)
Inductive parse_outcome : Type :=
  | TestFailed
  | LoopLeft (counters : parse_counters).

Definition count_record (kind : pti_view_kind) (c : parse_counters)
    : parse_counters :=
  let c1 := mkCounters (total_records c + 1) (number_of_memory_copies c)
              (number_of_kernel c) (number_of_overhead c) in
  let c2 :=
    if view_kind_eqb kind PTI_VIEW_DEVICE_GPU_KERNEL
    then mkCounters (total_records c1) (number_of_memory_copies c1)
           (number_of_kernel c1 + 1) (number_of_overhead c1)
    else c1 in
  let c3 :=
    if view_kind_eqb kind PTI_VIEW_DEVICE_GPU_MEM_COPY
    then mkCounters (total_records c2) (number_of_memory_copies c2 + 1)
           (number_of_kernel c2) (number_of_overhead c2)
    else c2 in
  if view_kind_eqb kind PTI_VIEW_COLLECTION_OVERHEAD
  then mkCounters (total_records c3) (number_of_memory_copies c3)
         (number_of_kernel c3) (number_of_overhead c3 + 1)
  else c3.

(** The [while (true)] loop, bounded by [fuel] iterations. *)
Fixpoint parse_loop (fuel : nat) (L : layout) (bytes : list byte)
    (record : iterator) (c : parse_counters) : option parse_outcome :=
  match fuel with
  | O => None
  | S fuel' =>
      match ptiViewGetNextRecord L (Some bytes) (buffer_size bytes)
              (Some record) with
      | (PTI_STATUS_END_OF_BUFFER, _) => Some (LoopLeft c)
      | (PTI_ERROR_INTERNAL, _) => Some TestFailed
      | (PTI_ERROR_BAD_ARGUMENT, _) => Some TestFailed
      | (PTI_SUCCESS, Some it') =>
          match current_record it' with
          | Some view =>
              parse_loop fuel' L bytes it' (count_record (view_kind view) c)
          | None => None
          end
      | (PTI_SUCCESS, None) => None
      end
  end.

Definition RegularParseRecordsTest (fuel : nat) (L : layout)
    : option parse_outcome :=
  parse_loop fuel L (test_buf_ L) iterator_start (mkCounters 0 0 0 0).

(** The four expectations at the end of the test. *)
Definition expectations_met (c : parse_counters) : Prop :=
  number_of_memory_copies c = N.of_nat kNumMemRecs ∧
  number_of_overhead c = N.of_nat (2 * kNumOhRecs) ∧
  number_of_kernel c = N.of_nat kNumKernelRecs ∧
  total_records c = N.of_nat kTotalRecs.

(** The number of records of one kind in a sequence of kinds. *)
Definition count_kind (kind : pti_view_kind) (kinds : list pti_view_kind)
    : nat :=
  length (filter (λ k, view_kind_eqb k kind = true) kinds).

(** The views expected from a buffer that holds records of the given
    kinds from [offset] on. *)
Fixpoint views_from (L : layout) (offset : N) (kinds : list pti_view_kind)
    : list record_view :=
  match kinds with
  | [] => []
  | kind :: kinds' =>
      mkView offset kind (sizeof_record L kind) ::
      views_from L (offset + sizeof_record L kind) kinds'
  end.

(** ** A sample layout

    A header of two little-endian 32-bit words, the kind and then
    [struct_size], and record sizes chosen for the examples. *)
Definition byte_of_N (n : N) : byte := default x00 (Byte.of_N (n mod 256)).

Definition write_u32 (n : N) : list byte :=
  [byte_of_N n; byte_of_N (n / 256); byte_of_N (n / 65536);
   byte_of_N (n / 16777216)].

Definition read_u32 (bytes : list byte) : N :=
  match bytes with
  | b0 :: b1 :: b2 :: b3 :: _ =>
      Byte.to_N b0 + 256 * Byte.to_N b1 + 65536 * Byte.to_N b2 +
      16777216 * Byte.to_N b3
  | _ => 0
  end.

Definition sample_tag (kind : pti_view_kind) : N :=
  match kind with
  | PTI_VIEW_INVALID => 0
  | PTI_VIEW_DEVICE_GPU_KERNEL => 1
  | PTI_VIEW_DEVICE_GPU_MEM_COPY => 2
  | PTI_VIEW_DEVICE_GPU_MEM_FILL => 3
  | PTI_VIEW_EXTERNAL_CORRELATION => 4
  | PTI_VIEW_COLLECTION_OVERHEAD => 5
  end.

Definition sample_kind (tag : N) : option pti_view_kind :=
  match tag with
  | 0 => Some PTI_VIEW_INVALID
  | 1 => Some PTI_VIEW_DEVICE_GPU_KERNEL
  | 2 => Some PTI_VIEW_DEVICE_GPU_MEM_COPY
  | 3 => Some PTI_VIEW_DEVICE_GPU_MEM_FILL
  | 4 => Some PTI_VIEW_EXTERNAL_CORRELATION
  | 5 => Some PTI_VIEW_COLLECTION_OVERHEAD
  | _ => None
  end.

Definition sample_sizeof (kind : pti_view_kind) : N :=
  match kind with
  | PTI_VIEW_INVALID => 8
  | PTI_VIEW_DEVICE_GPU_KERNEL => 200
  | PTI_VIEW_DEVICE_GPU_MEM_COPY => 120
  | PTI_VIEW_DEVICE_GPU_MEM_FILL => 104
  | PTI_VIEW_EXTERNAL_CORRELATION => 24
  | PTI_VIEW_COLLECTION_OVERHEAD => 48
  end.

Definition sample_layout : layout :=
  mkLayout 8
    (λ bytes, (sample_kind (read_u32 bytes), read_u32 (drop 4 bytes)))
    (λ kind size, write_u32 (sample_tag kind) ++ write_u32 size)
    sample_sizeof.

(** ** Registration of the buffer callbacks *)

(** A buffer-request callback [void (unsigned char** buf, size_t*
    buf_size)], by its name and the size it stores through
    [buf_size]. *)
Record request_callback : Type := mkRequest {
  request_name : string;
  request_size : N
}.

Definition request_callback_eqb (a b : request_callback) : bool :=
  String.eqb (request_name a) (request_name b) &&
  (request_size a =? request_size b).

(** The three request callbacks of the fixture. *)
Definition BufferRequested (L : layout) : request_callback :=
  mkRequest "BufferRequested" (sizeof_record L PTI_VIEW_DEVICE_GPU_KERNEL).

Definition InadequateBufferRequested (L : layout) : request_callback :=
  mkRequest "InadequateBufferRequested"
    (sizeof_record L PTI_VIEW_DEVICE_GPU_KERNEL - 1).

Definition NullBufferRequested (L : layout) : request_callback :=
  mkRequest "NullBufferRequested"
    (sizeof_record L PTI_VIEW_DEVICE_GPU_MEM_COPY -
     sizeof_record L PTI_VIEW_DEVICE_GPU_MEM_COPY).

(** The state of the view collector: the callbacks registered by the
    application ([None] while the library uses its own), the enabled
    view kinds, and the request callbacks invoked so far, newest
    first. *)
Record collector : Type := mkCollector {
  registered : option (request_callback * string);
  enabled_views : list pti_view_kind;
  buffer_requests : list request_callback
}.

Definition initial_collector : collector := mkCollector None [] [].

(** How often a request callback has been invoked. *)
Definition invocations (request : request_callback) (st : collector) : nat :=
  length (filter (λ r, request_callback_eqb r request = true)
            (buffer_requests st)).

(** Modelled from the spec: [ptiViewSetCallbacks(request, completed)] is
    not among the sources at hand.  The request callback is invoked
    once, to see what it supplies; if that is smaller than the largest
    possible single record the registration is rejected with
    [PTI_ERROR_BAD_ARGUMENT] and the callbacks in use stay as they
    were, otherwise the pair is registered. *)
Definition ptiViewSetCallbacks (L : layout) (request : request_callback)
    (completed : string) (st : collector) : pti_result * collector :=
  let requests := request :: buffer_requests st in
  if request_size request <? max_record_size L then
    (PTI_ERROR_BAD_ARGUMENT,
     mkCollector (registered st) (enabled_views st) requests)
  else
    (PTI_SUCCESS,
     mkCollector (Some (request, completed)) (enabled_views st) requests).

(** Modelled from the spec: what happens while tracing.  Views are
    enabled and disabled, the backend asks for storage through the
    registered request callback (the library's own storage when none is
    registered), and views are flushed. *)
Inductive tracing_call : Type :=
  | ViewEnable (kind : pti_view_kind)
  | ViewDisable (kind : pti_view_kind)
  | BackendRequest
  | FlushAllViews.

(** Modelled from the spec: the effect of one such call on the
    collector.  Enabling and disabling are idempotent, and only
    [BackendRequest] invokes a callback: the registered one. *)
Definition tracing_step (call : tracing_call) (st : collector) : collector :=
  match call with
  | ViewEnable kind =>
      if existsb (view_kind_eqb kind) (enabled_views st) then st
      else mkCollector (registered st) (kind :: enabled_views st)
             (buffer_requests st)
  | ViewDisable kind =>
      mkCollector (registered st)
        (List.filter (λ k, negb (view_kind_eqb kind k)) (enabled_views st))
        (buffer_requests st)
  | BackendRequest =>
      match registered st with
      | Some (request, _) =>
          mkCollector (registered st) (enabled_views st)
            (request :: buffer_requests st)
      | None => st
      end
  | FlushAllViews => st
  end.

Inductive api_call : Type :=
  | SetCallbacks (request : request_callback) (completed : string)
  | Tracing (call : tracing_call).

Definition api_step (L : layout) (call : api_call) (st : collector)
    : collector :=
  match call with
  | SetCallbacks request completed =>
      (ptiViewSetCallbacks L request completed st).2
  | Tracing call => tracing_step call st
  end.

Definition run_api (L : layout) (calls : list api_call) (st : collector)
    : collector :=
  foldl (λ st call, api_step L call st) st calls.

Definition run_tracing (calls : list tracing_call) (st : collector)
    : collector :=
  foldl (λ st call, tracing_step call st) st calls.

(** [RunGemm] of the fixture, as the collector sees it: three views
    are enabled, the workload makes the backend ask for storage some
    number of times, the views are disabled and flushed. *)
Definition RunGemm (requests : nat) : list tracing_call :=
  [ViewEnable PTI_VIEW_DEVICE_GPU_KERNEL;
   ViewEnable PTI_VIEW_DEVICE_GPU_MEM_COPY;
   ViewEnable PTI_VIEW_DEVICE_GPU_MEM_FILL] ++
  replicate requests BackendRequest ++
  [ViewDisable PTI_VIEW_DEVICE_GPU_KERNEL;
   ViewDisable PTI_VIEW_DEVICE_GPU_MEM_COPY;
   ViewDisable PTI_VIEW_DEVICE_GPU_MEM_FILL;
   FlushAllViews].

(** The registered request callback supplies room for any record. *)
Definition registered_adequate (L : layout) (st : collector) : Prop :=
  ∀ request completed, registered st = Some (request, completed) →
    max_record_size L ≤ request_size request.

(** * Further code of the two files *)

(** ** The tracing callbacks of [ClApiCollector] *)

Inductive cl_callback_site : Type :=
  | CL_CALLBACK_SITE_ENTER
  | CL_CALLBACK_SITE_EXIT.

(** The fields of [cl_callback_data] the collector reads.
    [correlationData] is the address of the 64-bit slot the tracer
    keeps for the call. *)
Record cl_callback_data : Type := mkCallbackData {
  site : cl_callback_site;
  functionName : string;
  correlationData : N
}.

(** [end_time - start_time] on [uint64_t]. *)
Definition sub64 (a b : N) : N := wrap64 (a + (u64_modulus - wrap64 b)).

(** [*reinterpret_cast<uint64_t*>(data->correlationData) = value] on the
    memory of the correlation slots. *)
Definition store64 (address value : N) (memory : N → N) : N → N :=
  λ a, if a =? address then value else memory a.

(** [OnFunctionEnter].  [timestamp] is what [GetTimestamp] returns in
    this call, [collector] the pointer passed as [user_data] ([None]
    when null) with the map it points to; [None] as a result is a
    failed [PTI_ASSERT]. *)
Definition OnFunctionEnter (timestamp : N) (data : cl_callback_data)
    (collector : option (gmap string Function)) (memory : N → N)
    : option (gmap string Function * (N → N)) :=
  match collector with
  | None => None
  | Some function_info_map =>
      Some (function_info_map,
            store64 (correlationData data) timestamp memory)
  end.

(** [OnFunctionExit] *)
Definition OnFunctionExit (timestamp : N) (data : cl_callback_data)
    (collector : option (gmap string Function)) (memory : N → N)
    : option (gmap string Function * (N → N)) :=
  match collector with
  | None => None
  | Some function_info_map =>
      let end_time := timestamp in
      let start_time := memory (correlationData data) in
      Some (AddFunctionTime (functionName data) (sub64 end_time start_time)
              function_info_map,
            memory)
  end.

(** [Callback] *)
Definition Callback (timestamp : N) (callback_data : cl_callback_data)
    (collector : option (gmap string Function)) (memory : N → N)
    : option (gmap string Function * (N → N)) :=
  match site callback_data with
  | CL_CALLBACK_SITE_ENTER =>
      OnFunctionEnter timestamp callback_data collector memory
  | CL_CALLBACK_SITE_EXIT =>
      OnFunctionExit timestamp callback_data collector memory
  end.

(** The tracer invokes [Callback] once per event, each time with the
    collector it was created with and the clock reading of the
    moment. *)
Fixpoint run_callbacks (events : list (N * cl_callback_data))
    (function_info_map : gmap string Function) (memory : N → N)
    : option (gmap string Function * (N → N)) :=
  match events with
  | [] => Some (function_info_map, memory)
  | (timestamp, callback_data) :: events' =>
      match Callback timestamp callback_data (Some function_info_map)
              memory with
      | Some (function_info_map', memory') =>
          run_callbacks events' function_info_map' memory'
      | None => None
      end
  end.

Definition is_exit (event : N * cl_callback_data) : bool :=
  match site event.2 with
  | CL_CALLBACK_SITE_EXIT => true
  | CL_CALLBACK_SITE_ENTER => false
  end.

(** What a correlation slot holds after some callbacks: the clock
    reading of the latest enter callback on that slot, or what the slot
    held before if there was none. *)
Definition slot_after (events : list (N * cl_callback_data))
    (memory : N → N) (slot : N) : N :=
  match last (filter (λ e : N * cl_callback_data,
                        is_exit e = false ∧ correlationData e.2 = slot)
                events) with
  | Some e => e.1
  | None => memory slot
  end.

(** The times the exit callbacks among [events] are expected to record,
    in order, when the callbacks [before] came first: each exit gives,
    under its function name, its clock reading minus (on [uint64_t])
    what its slot holds at that moment. *)
Fixpoint exits_after (before events : list (N * cl_callback_data))
    (memory : N → N) : list (string * N) :=
  match events with
  | [] => []
  | e :: events' =>
      (if is_exit e
       then [(functionName e.2,
              sub64 e.1 (slot_after before memory (correlationData e.2)))]
       else []) ++
      exits_after (before ++ [e]) events' memory
  end.

(** ** One row of the table *)

(** The values the second loop of [PrintFunctionsTable] computes for an
    entry. *)
Definition row_of (total_duration : N) (value : string * Function) : Row :=
  mkRow value.1 (call_count value.2) (total_time value.2) total_duration
    (total_time value.2 / call_count value.2) (min_time value.2)
    (max_time value.2).

(** The entry a row was printed from. *)
Definition entry_of (r : Row) : string * Function :=
  (row_function r,
   mkFunction (row_duration r) (row_min_duration r) (row_max_duration r)
     (row_calls r)).

(** ** Steps left to a thread *)

(** How many steps a thread still takes before it has made all its
    calls. *)
Definition remaining_steps (t : thread) : nat :=
  match at_pc t with
  | Outside => 4 * length (pending t)
  | Locked => 4 * length (pending t) - 1
  | HasRead _ => 4 * length (pending t) - 2
  | Written => 4 * length (pending t) + 1
  end.

(** ** [MainZeFixtureTest::BufferCompleted] *)

(** The counters of the fixture that its callbacks update, and the
    lines written to [std::cerr] and [std::cout], oldest first. *)
Record fixture_globals : Type := mkGlobals {
  requested_buffer_calls : N;
  rejected_buffer_calls : N;
  completed_buffer_calls : N;
  completed_buffer_used_bytes : N;
  memory_view_record_created : bool;
  kernel_view_record_created : bool;
  memory_view_record_count : N;
  kernel_view_record_count : N;
  printed_lines : list string
}.

Definition print_line (line : string) (g : fixture_globals) : fixture_globals :=
  mkGlobals (requested_buffer_calls g) (rejected_buffer_calls g)
    (completed_buffer_calls g) (completed_buffer_used_bytes g)
    (memory_view_record_created g) (kernel_view_record_created g)
    (memory_view_record_count g) (kernel_view_record_count g)
    (printed_lines g ++ [line]).

(** The [switch] on [ptr->_view_kind]. *)
Definition switch_view_kind (kind : pti_view_kind) (g : fixture_globals)
    : fixture_globals :=
  match kind with
  | PTI_VIEW_INVALID => print_line "Found Invalid Record" g
  | PTI_VIEW_DEVICE_GPU_MEM_COPY
  | PTI_VIEW_DEVICE_GPU_MEM_FILL =>
      mkGlobals (requested_buffer_calls g) (rejected_buffer_calls g)
        (completed_buffer_calls g) (completed_buffer_used_bytes g)
        true (kernel_view_record_created g)
        (wrap64 (memory_view_record_count g + 1))
        (kernel_view_record_count g) (printed_lines g)
  | PTI_VIEW_DEVICE_GPU_KERNEL =>
      mkGlobals (requested_buffer_calls g) (rejected_buffer_calls g)
        (completed_buffer_calls g) (completed_buffer_used_bytes g)
        (memory_view_record_created g) true
        (memory_view_record_count g)
        (wrap64 (kernel_view_record_count g + 1)) (printed_lines g)
  | _ => print_line "This shouldn't happen" g
  end.

(** The [while (true)] loop of [BufferCompleted], bounded by [fuel]
    iterations. *)
Fixpoint completed_loop (fuel : nat) (L : layout) (buf : option (list byte))
    (used_bytes : N) (ptr : iterator) (g : fixture_globals)
    : option fixture_globals :=
  match fuel with
  | O => None
  | S fuel' =>
      match ptiViewGetNextRecord L buf used_bytes (Some ptr) with
      | (PTI_STATUS_END_OF_BUFFER, _) => Some g
      | (PTI_SUCCESS, Some ptr') =>
          match current_record ptr' with
          | Some view =>
              completed_loop fuel' L buf used_bytes ptr'
                (switch_view_kind (view_kind view) g)
          | None => None
          end
      | (PTI_SUCCESS, None) => None
      | (_, _) => Some (print_line "Found Error Parsing Records from PTI" g)
      end
  end.

Definition BufferCompleted (fuel : nat) (L : layout)
    (buf : option (list byte)) (buf_size used_bytes : N)
    (g : fixture_globals) : option fixture_globals :=
  match buf with
  | Some _ =>
      if (used_bytes =? 0) || (buf_size =? 0) then
        Some (print_line "Received empty buffer" g)
      else
        completed_loop fuel L buf used_bytes iterator_start
          (mkGlobals (requested_buffer_calls g) (rejected_buffer_calls g)
             (wrap64 (completed_buffer_calls g + 1)) used_bytes
             (memory_view_record_created g) (kernel_view_record_created g)
             (memory_view_record_count g) (kernel_view_record_count g)
             (printed_lines g))
  | None => Some (print_line "Received empty buffer" g)
  end.

(** ** [TEST_F(GetNextRecordTestSuite, CheckBufferEndTest)] *)

(** What the body of the test observes: [total_records] when the loop
    is left, whether [current_record] was not null there, the result of
    the call after the loop and whether [current_record] is not null
    after it. *)
Record end_test_observed : Type := mkEndObserved {
  end_total_records : N;
  end_record_not_null : bool;
  end_final_result : pti_result;
  end_final_record_not_null : bool
}.

Definition record_not_null (record : option iterator) : bool :=
  match record with
  | Some it => bool_decide (is_Some (current_record it))
  | None => false
  end.

(** The loop of the test: it is left only on
    [PTI_STATUS_END_OF_BUFFER]; every other result counts as a
    record. *)
Fixpoint end_test_loop (fuel : nat) (L : layout) (bytes : list byte)
    (record : iterator) (total : N) : option (N * iterator) :=
  match fuel with
  | O => None
  | S fuel' =>
      match ptiViewGetNextRecord L (Some bytes) (buffer_size bytes)
              (Some record) with
      | (PTI_STATUS_END_OF_BUFFER, Some record') => Some (total, record')
      | (_, Some record') =>
          end_test_loop fuel' L bytes record' (wrap64 (total + 1))
      | (_, None) => None
      end
  end.

Definition CheckBufferEndTest (fuel : nat) (L : layout) (bytes : list byte)
    : option end_test_observed :=
  match end_test_loop fuel L bytes iterator_start 0 with
  | Some (total, record) =>
      let '(result, record') :=
        ptiViewGetNextRecord L (Some bytes) (buffer_size bytes)
          (Some record) in
      Some (mkEndObserved total (record_not_null (Some record)) result
              (record_not_null record'))
  | None => None
  end.

(** ** Lemmas on the arithmetic *)

Lemma wrap64_small n : is_u64 n → wrap64 n = n.
Proof. intros H. apply N.mod_small, H. Qed.

Lemma wrap64_add_l a b : wrap64 (wrap64 a + b) = wrap64 (a + b).
Proof.
  unfold wrap64. rewrite N.Div0.add_mod_idemp_l. reflexivity.
Qed.

Lemma sum_times_app ts us : sum_times (ts ++ us) = sum_times ts + sum_times us.
Proof.
  induction ts as [|t ts IH]; simpl; [reflexivity|]. rewrite IH. lia.
Qed.

Lemma foldl_min_le_init t ts : foldl N.min t ts ≤ t.
Proof.
  revert t. induction ts as [|u ts IH]; intros t; simpl; [lia|].
  specialize (IH (N.min t u)). lia.
Qed.

Lemma foldl_max_ge_init t ts : t ≤ foldl N.max t ts.
Proof.
  revert t. induction ts as [|u ts IH]; intros t; simpl; [lia|].
  specialize (IH (N.max t u)). lia.
Qed.

Lemma foldl_min_lower t ts : ∀ x, x ∈ t :: ts → foldl N.min t ts ≤ x.
Proof.
  revert t. induction ts as [|u ts IH]; intros t x Hx; simpl.
  - apply list_elem_of_singleton in Hx. subst. lia.
  - apply elem_of_cons in Hx as [->|Hx].
    + pose proof (foldl_min_le_init (N.min t u) ts). lia.
    + apply elem_of_cons in Hx as [->|Hx].
      * pose proof (foldl_min_le_init (N.min t u) ts). lia.
      * apply IH. right. exact Hx.
Qed.

Lemma foldl_max_upper t ts : ∀ x, x ∈ t :: ts → x ≤ foldl N.max t ts.
Proof.
  revert t. induction ts as [|u ts IH]; intros t x Hx; simpl.
  - apply list_elem_of_singleton in Hx. subst. lia.
  - apply elem_of_cons in Hx as [->|Hx].
    + pose proof (foldl_max_ge_init (N.max t u) ts). lia.
    + apply elem_of_cons in Hx as [->|Hx].
      * pose proof (foldl_max_ge_init (N.max t u) ts). lia.
      * apply IH. right. exact Hx.
Qed.

Lemma foldl_min_elem t ts : foldl N.min t ts ∈ t :: ts.
Proof.
  revert t. induction ts as [|u ts IH]; intros t; simpl; [left|].
  specialize (IH (N.min t u)).
  apply elem_of_cons in IH as [Heq|Hin].
  - rewrite Heq. destruct (N.min_spec t u) as [[_ ->]|[_ ->]].
    + left.
    + right. left.
  - right. right. exact Hin.
Qed.

Lemma foldl_max_elem t ts : foldl N.max t ts ∈ t :: ts.
Proof.
  revert t. induction ts as [|u ts IH]; intros t; simpl; [left|].
  specialize (IH (N.max t u)).
  apply elem_of_cons in IH as [Heq|Hin].
  - rewrite Heq. destruct (N.max_spec t u) as [[_ ->]|[_ ->]].
    + right. left.
    + left.
  - right. right. exact Hin.
Qed.

Lemma foldl_min_bounds t ts :
  foldl N.min t ts * N.of_nat (length (t :: ts)) ≤ sum_times (t :: ts).
Proof.
  assert (H : ∀ (us : list N) (m : N), (∀ x, x ∈ us → m ≤ x) →
            m * N.of_nat (length us) ≤ sum_times us).
  { induction us as [|u us IH]; intros m Hm; simpl length; simpl sum_times.
    - lia.
    - assert (m ≤ u) by (apply Hm; left).
      assert (m * N.of_nat (length us) ≤ sum_times us).
      { apply IH. intros x Hx. apply Hm. right. exact Hx. }
      lia. }
  apply H. apply foldl_min_lower.
Qed.

Lemma foldl_max_bounds t ts :
  sum_times (t :: ts) ≤ foldl N.max t ts * N.of_nat (length (t :: ts)).
Proof.
  assert (H : ∀ (us : list N) (m : N), (∀ x, x ∈ us → x ≤ m) →
            sum_times us ≤ m * N.of_nat (length us)).
  { induction us as [|u us IH]; intros m Hm; simpl length; simpl sum_times.
    - lia.
    - assert (u ≤ m) by (apply Hm; left).
      assert (sum_times us ≤ m * N.of_nat (length us)).
      { apply IH. intros x Hx. apply Hm. right. exact Hx. }
      lia. }
  apply H. apply foldl_max_upper.
Qed.

(** ** One call *)

Lemma AddFunctionTime_lookup name time m :
  AddFunctionTime name time m !! name =
    Some (match m !! name with
          | None => mkFunction time time time 1
          | Some function => accumulate function time
          end).
Proof.
  unfold AddFunctionTime, map_count, map_at.
  destruct (m !! name) as [f|]; simpl; apply lookup_insert_eq.
Qed.

Lemma AddFunctionTime_lookup_ne name name' time m :
  name ≠ name' → AddFunctionTime name time m !! name' = m !! name'.
Proof.
  intros Hne. unfold AddFunctionTime.
  destruct (map_count m name =? 0); by rewrite lookup_insert_ne.
Qed.

Lemma accumulate_fields function time :
  accumulate function time =
    mkFunction (wrap64 (total_time function + time))
      (N.min (min_time function) time) (N.max (max_time function) time)
      (wrap64 (call_count function + 1)).
Proof.
  unfold accumulate. f_equal.
  - destruct (N.ltb_spec time (min_time function)); lia.
  - destruct (N.ltb_spec (max_time function) time); lia.
Qed.

(** ** Any history of calls *)

Lemma record_calls_snoc calls name time :
  record_calls (calls ++ [(name, time)]) =
    AddFunctionTime name time (record_calls calls).
Proof. unfold record_calls. rewrite foldl_app. reflexivity. Qed.

Lemma times_of_snoc name calls name' time :
  times_of name (calls ++ [(name', time)]) =
    times_of name calls ++ (if decide (name' = name) then [time] else []).
Proof.
  unfold times_of. rewrite filter_app, fmap_app. f_equal.
  rewrite filter_cons. simpl. destruct (decide (name' = name)); reflexivity.
Qed.

Lemma summary_snoc ts time :
  is_u64 time →
  summary (ts ++ [time]) =
    Some (match summary ts with
          | None => mkFunction time time time 1
          | Some function => accumulate function time
          end).
Proof.
  intros Htime. destruct ts as [|t ts]; simpl.
  - f_equal. f_equal.
    + rewrite N.add_0_r. apply wrap64_small, Htime.
  - f_equal. rewrite accumulate_fields. simpl. f_equal.
    + rewrite wrap64_add_l. f_equal.
      change (t + sum_times (ts ++ [time]) = sum_times (t :: ts) + time).
      rewrite sum_times_app. simpl. lia.
    + rewrite foldl_app. reflexivity.
    + rewrite foldl_app. reflexivity.
    + rewrite wrap64_add_l. f_equal. rewrite length_app. simpl. lia.
Qed.

Lemma record_calls_lookup calls name :
  Forall (λ c, is_u64 c.2) calls →
  record_calls calls !! name = summary (times_of name calls).
Proof.
  induction calls as [|[name' time] calls IH] using rev_ind; intros Hu.
  - reflexivity.
  - rewrite Forall_app, Forall_singleton in Hu. destruct Hu as [Hu Htime].
    simpl in Htime.
    rewrite record_calls_snoc, times_of_snoc.
    destruct (decide (name' = name)) as [->|Hne].
    + rewrite AddFunctionTime_lookup, (summary_snoc _ _ Htime), (IH Hu).
      reflexivity.
    + rewrite AddFunctionTime_lookup_ne, app_nil_r by assumption.
      apply IH, Hu.
Qed.

(** ** Claims on [AddFunctionTime] *)

(** C1 (as amended).  The first call under a name creates the entry
    [{time, time, time, 1}]; every later call under that name adds the
    time to [total_time] modulo [2^64], keeps the smaller value in
    [min_time] and the larger one in [max_time], and adds one to
    [call_count] modulo [2^64].  Hence after any history of calls with
    64-bit times a name that was never called has no entry, and a name
    called with times [ts] has [call_count] equal to the number of those
    calls modulo [2^64], [total_time] equal to their sum modulo [2^64]
    (so the exact sum when it fits in 64 bits), and [min_time] and
    [max_time] equal to the least and the greatest of them. *)
Theorem AddFunctionTime_statistics (calls : list (string * N)) (name : string) :
  Forall (λ c, is_u64 c.2) calls →
  (∀ m time, m !! name = None →
     AddFunctionTime name time m !! name = Some (mkFunction time time time 1)) ∧
  (∀ m time f, m !! name = Some f →
     AddFunctionTime name time m !! name =
       Some (mkFunction (wrap64 (total_time f + time))
               (N.min (min_time f) time) (N.max (max_time f) time)
               (wrap64 (call_count f + 1)))) ∧
  (times_of name calls = [] → record_calls calls !! name = None) ∧
  (times_of name calls ≠ [] →
     ∃ f, record_calls calls !! name = Some f ∧
       call_count f = wrap64 (N.of_nat (length (times_of name calls))) ∧
       total_time f = wrap64 (sum_times (times_of name calls)) ∧
       (is_u64 (sum_times (times_of name calls)) →
          total_time f = sum_times (times_of name calls)) ∧
       min_time f ∈ times_of name calls ∧
       (∀ t, t ∈ times_of name calls → min_time f ≤ t) ∧
       max_time f ∈ times_of name calls ∧
       (∀ t, t ∈ times_of name calls → t ≤ max_time f)).
Proof.
  intros Hu. repeat split.
  - intros m time Hm. rewrite AddFunctionTime_lookup, Hm. reflexivity.
  - intros m time f Hm.
    rewrite AddFunctionTime_lookup, Hm, accumulate_fields. reflexivity.
  - intros Hts. rewrite (record_calls_lookup _ _ Hu), Hts. reflexivity.
  - intros Hts. rewrite (record_calls_lookup _ _ Hu).
    destruct (times_of name calls) as [|t ts]; [done|].
    eexists. split; [reflexivity|]. simpl. repeat split.
    + apply wrap64_small.
    + apply foldl_min_elem.
    + apply foldl_min_lower.
    + apply foldl_max_elem.
    + apply foldl_max_upper.
Qed.

Lemma AddFunctionTime_statistics_witness :
  let calls :=
    [("clFinish"%string, 7); ("clEnqueueNDRangeKernel"%string, 30);
     ("clFinish"%string, 5)] in
  Forall (λ c, is_u64 c.2) calls ∧
  ∃ f, record_calls calls !! "clFinish"%string = Some f ∧
    call_count f = 2 ∧ total_time f = 12 ∧
    (∀ t, t ∈ [7; 5] → min_time f ≤ t) ∧ (∀ t, t ∈ [7; 5] → t ≤ max_time f).
Proof.
  intros calls.
  assert (Hu : Forall (λ c, is_u64 c.2) calls) by (repeat constructor).
  split; [exact Hu|].
  destruct (AddFunctionTime_statistics calls "clFinish" Hu)
    as (_ & _ & _ & H).
  destruct H as (f & Hf & Hcount & Htotal & _ & _ & Hmin & _ & Hmax);
    [discriminate|].
  exists f. repeat split; assumption.
Defined.

(** C1, counterexample to the claim as first stated: two calls of
    [2^63] ns under one name are summed to [2^64], which [total_time]
    cannot hold; the field wraps around to [0]. *)
Lemma total_time_wraps_around :
  let calls :=
    [("clFinish"%string, 9223372036854775808);
     ("clFinish"%string, 9223372036854775808)] in
  Forall (λ c, is_u64 c.2) calls ∧
  record_calls calls !! "clFinish"%string =
    Some (mkFunction 0 9223372036854775808 9223372036854775808 2) ∧
  sum_times (times_of "clFinish" calls) = 18446744073709551616 ∧
  ¬ (∀ f, record_calls calls !! "clFinish"%string = Some f →
          total_time f = sum_times (times_of "clFinish" calls)).
Proof.
  intros calls.
  assert (Hrun : record_calls calls !! "clFinish"%string =
    Some (mkFunction 0 9223372036854775808 9223372036854775808 2))
    by (vm_compute; reflexivity).
  split; [repeat constructor|]. split; [exact Hrun|].
  split; [vm_compute; reflexivity|].
  intros H. specialize (H _ Hrun). vm_compute in H. discriminate H.
Qed.

Lemma elem_le_sum_times (ts : list N) x : x ∈ ts → x ≤ sum_times ts.
Proof.
  induction ts as [|t ts IH]; intros Hx.
  - by apply elem_of_nil in Hx.
  - simpl. apply elem_of_cons in Hx as [->|Hx]; [lia|].
    specialize (IH Hx). lia.
Qed.

Lemma times_of_app name calls calls' :
  times_of name (calls ++ calls') = times_of name calls ++ times_of name calls'.
Proof. unfold times_of. by rewrite filter_app, fmap_app. Qed.

Lemma times_of_elem name time calls :
  (name, time) ∈ calls → time ∈ times_of name calls.
Proof.
  intros Hin. unfold times_of.
  apply (list_elem_of_fmap_2 snd _ (name, time)).
  apply list_elem_of_filter. split; [reflexivity|exact Hin].
Qed.

Lemma summary_invariant ts f :
  is_u64 (sum_times ts) → is_u64 (N.of_nat (length ts)) →
  summary ts = Some f → stat_invariant f.
Proof.
  intros Hsum Hlen Hf. destruct ts as [|t ts]; [discriminate|].
  injection Hf as <-. unfold stat_invariant.
  cbn [total_time call_count min_time max_time].
  change (t + sum_times ts) with (sum_times (t :: ts)).
  change (S (length ts)) with (length (t :: ts)).
  rewrite (wrap64_small _ Hsum), (wrap64_small _ Hlen).
  pose proof (foldl_min_bounds t ts) as Hlo.
  pose proof (foldl_max_bounds t ts) as Hhi.
  assert (Hpos : N.of_nat (length (t :: ts)) ≠ 0) by (simpl; lia).
  split; [lia|]. split.
  - apply N.div_le_lower_bound; [exact Hpos|]. lia.
  - apply N.Div0.div_le_upper_bound. lia.
Qed.

(** C3 (as amended).  As long as, for every name, the times recorded
    under it add up to less than [2^64] and there are fewer than [2^64]
    of them, every entry of the map satisfies [call_count ≥ 1] and
    [min_time ≤ total_time / call_count ≤ max_time] after each call of
    the history, that is, after every prefix of it. *)
Theorem stat_invariant_preserved (calls : list (string * N)) :
  (∀ name, is_u64 (sum_times (times_of name calls)) ∧
           is_u64 (N.of_nat (length (times_of name calls)))) →
  ∀ (n : nat) (name : string) (f : Function),
    record_calls (take n calls) !! name = Some f → stat_invariant f.
Proof.
  intros Hfit n name f Hf.
  assert (Hsplit : times_of name calls =
            times_of name (take n calls) ++ times_of name (drop n calls)).
  { by rewrite <- times_of_app, take_drop. }
  destruct (Hfit name) as [Hsum Hlen]. rewrite Hsplit in Hsum, Hlen.
  rewrite sum_times_app in Hsum. rewrite length_app in Hlen.
  unfold is_u64 in *.
  rewrite record_calls_lookup in Hf.
  - apply (summary_invariant _ _) in Hf; [exact Hf| |]; unfold is_u64; lia.
  - apply Forall_forall. intros [name' time] Hin. simpl.
    apply elem_of_take in Hin as (i & Hin & _).
    apply list_elem_of_lookup_2, times_of_elem, elem_le_sum_times in Hin.
    destruct (Hfit name') as [Hsum' _]. unfold is_u64 in *. lia.
Qed.

Lemma stat_invariant_preserved_witness :
  let calls :=
    [("clFinish"%string, 7); ("clEnqueueNDRangeKernel"%string, 30);
     ("clFinish"%string, 5)] in
  (∀ name, is_u64 (sum_times (times_of name calls)) ∧
           is_u64 (N.of_nat (length (times_of name calls)))) ∧
  record_calls (take 3 calls) !! "clFinish"%string =
    Some (mkFunction 12 5 7 2) ∧
  stat_invariant (mkFunction 12 5 7 2).
Proof.
  intros calls.
  assert (Hfit : ∀ name, is_u64 (sum_times (times_of name calls)) ∧
                         is_u64 (N.of_nat (length (times_of name calls)))).
  { intros name. unfold times_of, calls. rewrite !filter_cons, filter_nil.
    simpl. repeat case_decide; split; reflexivity. }
  split; [exact Hfit|]. split; [reflexivity|].
  apply (stat_invariant_preserved calls Hfit 3 "clFinish"). reflexivity.
Defined.

(** C3, counterexample to the claim as first stated: after two calls of
    [2^63] ns the entry holds [total_time = 0] and [call_count = 2], so
    the average [0] is below [min_time = 2^63]. *)
Lemma stat_invariant_broken_by_overflow :
  let calls :=
    [("clFinish"%string, 9223372036854775808);
     ("clFinish"%string, 9223372036854775808)] in
  Forall (λ c, is_u64 c.2) calls ∧
  record_calls calls !! "clFinish"%string =
    Some (mkFunction 0 9223372036854775808 9223372036854775808 2) ∧
  ¬ stat_invariant (mkFunction 0 9223372036854775808 9223372036854775808 2).
Proof.
  intros calls. split; [repeat constructor|].
  split; [vm_compute; reflexivity|].
  intros (_ & Hmin & _). vm_compute in Hmin. apply Hmin. reflexivity.
Qed.

(** ** The comparison operators *)

(** C10.  [operator>] and [operator!=] read only [total_time] and
    [call_count]: replacing the operands by records with the same two
    fields does not change either result, and two records that agree on
    both fields are neither greater nor unequal, whatever their
    [min_time] and [max_time]. *)
Theorem Function_compare_ignores_min_max (f g f' g' : Function) :
  total_time f = total_time f' → call_count f = call_count f' →
  total_time g = total_time g' → call_count g = call_count g' →
  Function_gt f g = Function_gt f' g' ∧
  Function_ne f g = Function_ne f' g' ∧
  (total_time f = total_time g → call_count f = call_count g →
     Function_gt f g = false ∧ Function_ne f g = false).
Proof.
  intros Ht Hc Ht' Hc'. unfold Function_gt, Function_ne.
  rewrite <- Ht, <- Hc, <- Ht', <- Hc'.
  split; [reflexivity|]. split; [reflexivity|].
  intros Htotal Hcount. rewrite Htotal, Hcount, !N.eqb_refl. simpl.
  split; [apply N.ltb_irrefl|reflexivity].
Qed.

Lemma Function_compare_ignores_min_max_witness :
  let f := mkFunction 40 1 30 4 in
  let g := mkFunction 40 10 10 4 in
  Function_gt f g = false ∧ Function_ne f g = false ∧
  Function_gt g f = false ∧ min_time f ≠ min_time g.
Proof.
  intros f g.
  destruct (Function_compare_ignores_min_max f g f g
              eq_refl eq_refl eq_refl eq_refl) as (_ & _ & H).
  destruct (H eq_refl eq_refl) as [Hgt Hne].
  destruct (Function_compare_ignores_min_max g f g f
              eq_refl eq_refl eq_refl eq_refl) as (_ & _ & H').
  destruct (H' eq_refl eq_refl) as [Hgt' _].
  split; [exact Hgt|]. split; [exact Hne|]. split; [exact Hgt'|discriminate].
Defined.

(** ** Lemmas on [PrintFunctionsTable] *)

Lemma Function_gt_before (a b : Function) :
  Function_gt a b = true →
  presented_before (total_time a) (call_count a) (total_time b) (call_count b).
Proof.
  unfold Function_gt, presented_before.
  destruct (N.eqb_spec (total_time a) (total_time b)) as [Heq|Hne]; simpl;
    intros H%N.ltb_lt; lia.
Qed.

Lemma Function_ne_false (a b : Function) :
  Function_ne a b = false →
  total_time a = total_time b ∧ call_count a = call_count b.
Proof.
  unfold Function_ne.
  destruct (N.eqb_spec (total_time a) (total_time b)) as [Heq|Hne];
    [|discriminate].
  destruct (N.eqb_spec (call_count a) (call_count b)); [done|discriminate].
Qed.

Lemma Function_ne_gt_total (a b : Function) :
  Function_ne a b = true → Function_gt a b = false → Function_gt b a = true.
Proof.
  unfold Function_ne, Function_gt.
  rewrite (N.eqb_sym (total_time b) (total_time a)).
  destruct (N.eqb_spec (total_time a) (total_time b)) as [Heq|Hne]; simpl.
  - destruct (N.eqb_spec (call_count a) (call_count b)); [discriminate|].
    intros _ H%N.ltb_ge. apply N.ltb_lt. lia.
  - intros _ H%N.ltb_ge. apply N.ltb_lt. lia.
Qed.

Section PrintTable.
Variable tie : string → string → bool.

Lemma Comparator_before a b : Comparator tie a b = true → entry_before a b.
Proof.
  unfold Comparator, entry_before.
  destruct (Function_ne a.2 b.2) eqn:Hne.
  - apply Function_gt_before.
  - intros _. apply Function_ne_false in Hne as [-> ->].
    right. split; [reflexivity|lia].
Qed.

Lemma Comparator_equivalent a b :
  Comparator tie a b = false → Comparator tie b a = false →
  total_time a.2 = total_time b.2 ∧ call_count a.2 = call_count b.2.
Proof.
  unfold Comparator. intros Hab Hba.
  destruct (Function_ne a.2 b.2) eqn:Hne.
  - pose proof (Function_ne_gt_total _ _ Hne Hab) as Hgt.
    destruct (Function_ne b.2 a.2) eqn:Hne'; [congruence|].
    apply Function_ne_false in Hne' as [? ?]. done.
  - by apply Function_ne_false.
Qed.

Lemma entry_before_trans a b c :
  entry_before a b → entry_before b c → entry_before a c.
Proof. unfold entry_before, presented_before. lia. Qed.

Lemma set_insert_elem x e s :
  x ∈ set_insert (Comparator tie) e s → x = e ∨ x ∈ s.
Proof.
  induction s as [|y s IH]; simpl.
  - intros ->%list_elem_of_singleton. by left.
  - destruct (Comparator tie y e).
    + intros [->|Hx]%elem_of_cons; [right; left|].
      destruct (IH Hx) as [->|Hin]; [by left|right; by right].
    + destruct (Comparator tie e y).
      * intros [->|Hx]%elem_of_cons; [by left|by right].
      * by right.
Qed.

Lemma set_insert_kept x e s :
  x ∈ s → x ∈ set_insert (Comparator tie) e s.
Proof.
  induction s as [|y s IH]; simpl; [by intros ?%elem_of_nil|].
  intros Hx. destruct (Comparator tie y e).
  - apply elem_of_cons in Hx as [->|Hx]; [left|right; by apply IH].
  - destruct (Comparator tie e y); [by right|done].
Qed.

Lemma set_insert_present e s :
  ∃ x, x ∈ set_insert (Comparator tie) e s ∧
       total_time x.2 = total_time e.2 ∧ call_count x.2 = call_count e.2.
Proof.
  induction s as [|y s IH]; simpl.
  - exists e. split; [left|done].
  - destruct (Comparator tie y e) eqn:Hye.
    + destruct IH as (x & Hx & Hstat). exists x. split; [by right|done].
    + destruct (Comparator tie e y) eqn:Hey.
      * exists e. split; [left|done].
      * exists y. split; [left|]. by apply Comparator_equivalent.
Qed.

Lemma set_insert_Forall z x s :
  Forall (entry_before z) s → entry_before z x →
  Forall (entry_before z) (set_insert (Comparator tie) x s).
Proof.
  intros Hs Hx. apply Forall_forall. intros y Hy.
  apply set_insert_elem in Hy as [->|Hy]; [done|].
  by apply (proj1 (Forall_forall _ _) Hs).
Qed.

Lemma set_insert_sorted x s :
  StronglySorted entry_before s →
  StronglySorted entry_before (set_insert (Comparator tie) x s).
Proof.
  induction 1 as [|y s Hsorted IH Hall]; simpl.
  - repeat constructor.
  - destruct (Comparator tie y x) eqn:Hyx.
    + constructor; [exact IH|].
      apply set_insert_Forall; [exact Hall|by apply Comparator_before].
    + destruct (Comparator tie x y) eqn:Hxy.
      * apply Comparator_before in Hxy.
        constructor; [by constructor|]. constructor; [exact Hxy|].
        eapply Forall_impl; [exact Hall|].
        intros z Hz. by apply (entry_before_trans x y z).
      * by constructor.
Qed.

Lemma foldl_set_insert_sorted es s :
  StronglySorted entry_before s →
  StronglySorted entry_before
    (foldl (λ s e, set_insert (Comparator tie) e s) s es).
Proof.
  revert s. induction es as [|e es IH]; intros s Hs; simpl; [exact Hs|].
  apply IH, set_insert_sorted, Hs.
Qed.

Lemma foldl_set_insert_elem x es s :
  x ∈ foldl (λ s e, set_insert (Comparator tie) e s) s es → x ∈ s ∨ x ∈ es.
Proof.
  revert s. induction es as [|e es IH]; intros s; simpl; [by left|].
  intros Hx. destruct (IH _ Hx) as [Hi|Hi]; [|right; by right].
  apply set_insert_elem in Hi as [->|Hi]; [right; left|by left].
Qed.

Lemma foldl_set_insert_kept x es s :
  x ∈ s → x ∈ foldl (λ s e, set_insert (Comparator tie) e s) s es.
Proof.
  revert s. induction es as [|e es IH]; intros s Hx; simpl; [exact Hx|].
  apply IH, set_insert_kept, Hx.
Qed.

Lemma foldl_set_insert_present e es s :
  e ∈ es →
  ∃ x, x ∈ foldl (λ s e, set_insert (Comparator tie) e s) s es ∧
       total_time x.2 = total_time e.2 ∧ call_count x.2 = call_count e.2.
Proof.
  revert s. induction es as [|e' es IH]; intros s He; simpl.
  - by apply elem_of_nil in He.
  - apply elem_of_cons in He as [->|He]; [|by apply IH].
    destruct (set_insert_present e' s) as (x & Hx & Hstat).
    exists x. split; [|exact Hstat]. by apply foldl_set_insert_kept.
Qed.

Lemma map_entries_elem m name f :
  (name, f) ∈ map_entries m ↔ m !! name = Some f.
Proof.
  unfold map_entries. rewrite merge_sort_Permutation.
  apply elem_of_map_to_list.
Qed.

Lemma sorted_list_sorted m : StronglySorted entry_before (sorted_list tie m).
Proof. apply foldl_set_insert_sorted. constructor. Qed.

Lemma sorted_list_elem m name f :
  (name, f) ∈ sorted_list tie m → m !! name = Some f.
Proof.
  intros H. apply foldl_set_insert_elem in H as [H|H].
  - by apply elem_of_nil in H.
  - by apply map_entries_elem.
Qed.

Lemma sorted_list_present m name f :
  m !! name = Some f →
  ∃ x, x ∈ sorted_list tie m ∧
       total_time x.2 = total_time f ∧ call_count x.2 = call_count f.
Proof.
  intros H. apply map_entries_elem in H.
  apply (foldl_set_insert_present _ _ []) in H. exact H.
Qed.
End PrintTable.

Lemma print_rows_Forall (P : Row → Prop) total_duration sorted :
  (∀ v, v ∈ sorted → call_count v.2 ≠ 0 →
     P (mkRow v.1 (call_count v.2) (total_time v.2) total_duration
          (total_time v.2 / call_count v.2) (min_time v.2) (max_time v.2))) →
  Forall P (print_rows total_duration sorted).1.
Proof.
  induction sorted as [|v rest IH]; intros HP; simpl; [constructor|].
  destruct (N.eqb_spec (call_count v.2) 0) as [Hz|Hnz]; [constructor|].
  destruct (print_rows total_duration rest) as [rows stopped] eqn:Hrest.
  simpl in *. constructor.
  - apply HP; [left|exact Hnz].
  - apply IH. intros v' Hv'. apply HP. by right.
Qed.

Lemma print_rows_sorted total_duration sorted :
  StronglySorted entry_before sorted →
  StronglySorted row_before (print_rows total_duration sorted).1.
Proof.
  induction 1 as [|v rest Hsorted IH Hall]; simpl; [constructor|].
  destruct (N.eqb_spec (call_count v.2) 0) as [Hz|Hnz]; [constructor|].
  pose proof (print_rows_Forall
    (row_before (mkRow v.1 (call_count v.2) (total_time v.2) total_duration
                   (total_time v.2 / call_count v.2) (min_time v.2)
                   (max_time v.2))) total_duration rest) as Hrows.
  destruct (print_rows total_duration rest) as [rows stopped].
  simpl in *. constructor; [exact IH|].
  apply Hrows. intros v' Hv' _.
  apply (proj1 (Forall_forall _ _) Hall v' Hv').
Qed.

Lemma print_rows_complete total_duration sorted :
  (∀ v, v ∈ sorted → call_count v.2 ≠ 0) →
  (print_rows total_duration sorted).2 = false ∧
  ∀ v, v ∈ sorted →
    ∃ r, r ∈ (print_rows total_duration sorted).1 ∧
      row_function r = v.1 ∧ row_duration r = total_time v.2 ∧
      row_calls r = call_count v.2.
Proof.
  induction sorted as [|v rest IH]; intros Hnz; simpl.
  - split; [reflexivity|]. by intros v ?%elem_of_nil.
  - destruct (N.eqb_spec (call_count v.2) 0) as [Hz|_].
    { exfalso. apply (Hnz v); [left|exact Hz]. }
    destruct IH as [Hstop Hrows].
    { intros v' Hv'. apply Hnz. by right. }
    destruct (print_rows total_duration rest) as [rows stopped].
    simpl in *. split; [exact Hstop|].
    intros v' [->|Hv']%elem_of_cons.
    + eexists. split; [left|]. done.
    + destruct (Hrows v' Hv') as (r & Hr & Hfields).
      exists r. split; [by right|exact Hfields].
Qed.

Lemma total_duration_of_sum sorted :
  total_duration_of sorted =
    wrap64 (sum_times ((λ v : string * Function, total_time v.2) <$> sorted)).
Proof.
  unfold total_duration_of.
  assert (H : ∀ acc,
    foldl (λ total (value : string * Function),
             wrap64 (total + total_time value.2)) (wrap64 acc) sorted =
    wrap64 (acc + sum_times
              ((λ v : string * Function, total_time v.2) <$> sorted))).
  { induction sorted as [|v rest IH]; intros acc.
    - simpl. by rewrite N.add_0_r.
    - rewrite fmap_cons. cbn [foldl].
      change (sum_times (total_time v.2 :: ?l))
        with (total_time v.2 + sum_times l).
      rewrite wrap64_add_l, IH, N.add_assoc. reflexivity. }
  apply (H 0).
Qed.

Lemma map_entries_empty : map_entries ∅ = [].
Proof. unfold map_entries. by rewrite map_to_list_empty. Qed.

(** ** Claims on [PrintFunctionsTable] *)

Lemma sum_times_zero (ts : list N) : Forall (λ t, t = 0) ts → sum_times ts = 0.
Proof.
  induction 1 as [|t ts Ht _ IH]; [reflexivity|]. simpl. rewrite Ht, IH.
  reflexivity.
Qed.

Lemma PrintFunctionsTable_no_time tie (m : gmap string Function) :
  (∀ name f, m !! name = Some f → total_time f = 0) →
  PrintFunctionsTable tie m = NothingPrinted.
Proof.
  intros Hzero. unfold PrintFunctionsTable.
  rewrite total_duration_of_sum, sum_times_zero; [reflexivity|].
  apply Forall_fmap, Forall_forall. intros [name f] Hv. simpl.
  apply (Hzero name). by apply (sorted_list_elem tie).
Qed.

Lemma record_calls_call_count calls name f :
  Forall (λ c, is_u64 c.2) calls →
  is_u64 (N.of_nat (length (times_of name calls))) →
  record_calls calls !! name = Some f → call_count f ≠ 0.
Proof.
  intros Hu Hlen Hf. rewrite (record_calls_lookup _ _ Hu) in Hf.
  destruct (times_of name calls) as [|t ts]; [discriminate|].
  injection Hf as <-. cbn [call_count].
  change (S (length ts)) with (length (t :: ts)).
  rewrite (wrap64_small _ Hlen). simpl. lia.
Qed.

(** C8.  [PrintFunctionsTable] orders the rows it prints by
    [total_time] descending, ties broken by [call_count] descending,
    whatever map it is given and whatever the comparator answers on
    equal statistics.  It reports nothing, and divides nothing, on a
    map with no entries and on a map whose entries all show no calls
    and no time.  On a snapshot of the aggregator, that is a map filled
    by [AddFunctionTime] with 64-bit times and fewer than [2^64] calls
    per name: if every entry had [call_count = 0] nothing would be
    reported; no call ever divides by zero; every printed row shows an
    entry of the snapshot with a non-zero [call_count], its average
    [total_time / call_count] and a non-zero divisor [total_duration]
    for the percentage; and either nothing is printed or the whole
    table is, with the statistics of every entry on one of its rows. *)
Theorem PrintFunctionsTable_snapshot
    (tie : string → string → bool) (calls : list (string * N))
    (m : gmap string Function) :
  Forall (λ c, is_u64 c.2) calls →
  (∀ name, is_u64 (N.of_nat (length (times_of name calls)))) →
  StronglySorted row_before (printed_rows (PrintFunctionsTable tie m)) ∧
  PrintFunctionsTable tie ∅ = NothingPrinted ∧
  ((∀ name f, m !! name = Some f → call_count f = 0 ∧ total_time f = 0) →
   PrintFunctionsTable tie m = NothingPrinted) ∧
  ((∀ name f, record_calls calls !! name = Some f → call_count f = 0) →
   PrintFunctionsTable tie (record_calls calls) = NothingPrinted) ∧
  (∀ w rows,
     PrintFunctionsTable tie (record_calls calls) ≠ DivisionByZero w rows) ∧
  Forall (λ r,
      record_calls calls !! row_function r =
        Some (mkFunction (row_duration r) (row_min_duration r)
                (row_max_duration r) (row_calls r)) ∧
      row_calls r ≠ 0 ∧
      row_avg_duration r = row_duration r / row_calls r ∧
      row_total_duration r ≠ 0)
    (printed_rows (PrintFunctionsTable tie (record_calls calls))) ∧
  (PrintFunctionsTable tie (record_calls calls) = NothingPrinted ∨
   ∃ w rows,
     PrintFunctionsTable tie (record_calls calls) = TablePrinted w rows ∧
     ∀ name f, record_calls calls !! name = Some f →
       ∃ r, r ∈ rows ∧ row_function r ∈ calls.*1 ∧
            row_duration r = total_time f ∧ row_calls r = call_count f).
Proof.
  intros Hu Hlen.
  assert (Hcount : ∀ name f,
            record_calls calls !! name = Some f → call_count f ≠ 0).
  { intros name f. apply record_calls_call_count; [exact Hu|apply Hlen]. }
  split; [|split; [|split; [|split; [|split; [|split]]]]].
  - unfold PrintFunctionsTable.
    pose proof (print_rows_sorted (total_duration_of (sorted_list tie m)) _
                  (sorted_list_sorted tie m)) as Hrows.
    destruct (total_duration_of (sorted_list tie m) =? 0); [constructor|].
    by destruct (print_rows _ _) as [rows []].
  - apply PrintFunctionsTable_no_time. intros name f. by rewrite lookup_empty.
  - intros Hzero. apply PrintFunctionsTable_no_time.
    intros name f Hf. by destruct (Hzero name f Hf).
  - intros Hzero. apply PrintFunctionsTable_no_time.
    intros name f Hf. by destruct (Hcount name f Hf), (Hzero name f Hf).
  - intros w rows. unfold PrintFunctionsTable.
    destruct (print_rows_complete
                (total_duration_of (sorted_list tie (record_calls calls)))
                (sorted_list tie (record_calls calls))) as [Hstop _].
    { intros [name f] Hv%sorted_list_elem. by apply (Hcount name). }
    destruct (total_duration_of (sorted_list tie (record_calls calls)) =? 0);
      [done|].
    destruct (print_rows _ _) as [rows' stopped]. simpl in Hstop.
    by subst stopped.
  - unfold PrintFunctionsTable.
    destruct (N.eqb_spec
                (total_duration_of (sorted_list tie (record_calls calls))) 0)
      as [Hz|Hnz]; [constructor|].
    pose proof (print_rows_Forall (λ r,
        record_calls calls !! row_function r =
          Some (mkFunction (row_duration r) (row_min_duration r)
                  (row_max_duration r) (row_calls r)) ∧
        row_calls r ≠ 0 ∧
        row_avg_duration r = row_duration r / row_calls r ∧
        row_total_duration r ≠ 0)
      (total_duration_of (sorted_list tie (record_calls calls)))
      (sorted_list tie (record_calls calls))) as Hall.
    assert (Hshown : Forall (λ r,
        record_calls calls !! row_function r =
          Some (mkFunction (row_duration r) (row_min_duration r)
                  (row_max_duration r) (row_calls r)) ∧
        row_calls r ≠ 0 ∧
        row_avg_duration r = row_duration r / row_calls r ∧
        row_total_duration r ≠ 0)
      (print_rows (total_duration_of (sorted_list tie (record_calls calls)))
         (sorted_list tie (record_calls calls))).1).
    { apply Hall. intros [name f] Hv Hnz'. simpl in *.
      split; [|done]. apply sorted_list_elem in Hv. by destruct f. }
    by destruct (print_rows _ _) as [rows []].
  - unfold PrintFunctionsTable.
    destruct (print_rows_complete
                (total_duration_of (sorted_list tie (record_calls calls)))
                (sorted_list tie (record_calls calls))) as [Hstop Hall].
    { intros [name f] Hv%sorted_list_elem. by apply (Hcount name). }
    destruct (total_duration_of (sorted_list tie (record_calls calls)) =? 0);
      [by left|right].
    destruct (print_rows _ _) as [rows stopped]. simpl in *. subst stopped.
    exists (max_name_length_of (sorted_list tie (record_calls calls))), rows.
    split; [reflexivity|]. intros name f Hf.
    destruct (sorted_list_present tie _ name f Hf) as (x & Hx & Ht & Hc).
    destruct (Hall x Hx) as (r & Hr & Hname & Hd & Hcalls).
    exists r. split; [exact Hr|]. split; [|split; congruence].
    rewrite Hname. destruct x as [name' f']. simpl.
    apply sorted_list_elem in Hx.
    rewrite (record_calls_lookup _ _ Hu) in Hx.
    destruct (times_of name' calls) as [|t ts] eqn:Hts; [discriminate|].
    assert (Hin : t ∈ times_of name' calls) by (rewrite Hts; left).
    unfold times_of in Hin.
    apply list_elem_of_fmap in Hin as ([name'' t'] & _ & Hin).
    apply list_elem_of_filter in Hin as [Heq Hin]. simpl in Heq. subst name''.
    by apply (list_elem_of_fmap_2 fst _ (name', t')).
Qed.

Lemma PrintFunctionsTable_snapshot_witness :
  let calls :=
    [("clFinish"%string, 7); ("clEnqueueNDRangeKernel"%string, 30);
     ("clFinish"%string, 5)] in
  Forall (λ c, is_u64 c.2) calls ∧
  (∀ name, is_u64 (N.of_nat (length (times_of name calls)))) ∧
  PrintFunctionsTable string_gt ∅ = NothingPrinted ∧
  PrintFunctionsTable string_gt (record_calls calls) =
    TablePrinted 22
      [mkRow "clEnqueueNDRangeKernel" 1 30 42 30 30 30;
       mkRow "clFinish" 2 12 42 6 5 7] ∧
  StronglySorted row_before
    [mkRow "clEnqueueNDRangeKernel" 1 30 42 30 30 30;
     mkRow "clFinish" 2 12 42 6 5 7] ∧
  (∀ w rows,
     PrintFunctionsTable string_gt (record_calls calls) ≠
       DivisionByZero w rows).
Proof.
  intros calls.
  assert (Hu : Forall (λ c, is_u64 c.2) calls) by (repeat constructor).
  assert (Hlen : ∀ name, is_u64 (N.of_nat (length (times_of name calls)))).
  { intros name. unfold times_of, calls. rewrite !filter_cons, filter_nil.
    simpl. repeat case_decide; reflexivity. }
  assert (Hprinted : PrintFunctionsTable string_gt (record_calls calls) =
    TablePrinted 22
      [mkRow "clEnqueueNDRangeKernel" 1 30 42 30 30 30;
       mkRow "clFinish" 2 12 42 6 5 7]) by (vm_compute; reflexivity).
  destruct (PrintFunctionsTable_snapshot string_gt calls (record_calls calls)
              Hu Hlen) as (Hsorted & Hempty & _ & _ & Hsafe & _).
  rewrite Hprinted in Hsorted.
  split; [exact Hu|]. split; [exact Hlen|]. split; [exact Hempty|].
  split; [exact Hprinted|]. split; [exact Hsorted|exact Hsafe].
Defined.

(** ** Lemmas on the concurrent callers *)

Lemma AddFunctionTime_read_write name time m :
  AddFunctionTime name time m = write_back name time (m !! name) m.
Proof.
  unfold AddFunctionTime, write_back, map_count, map_at.
  by destruct (m !! name).
Qed.

Lemma record_calls_write_back history name time :
  write_back name time (record_calls history !! name) (record_calls history) =
    record_calls (history ++ [(name, time)]).
Proof. by rewrite record_calls_snoc, AddFunctionTime_read_write. Qed.

(** Case analysis on the owner of the mutex, against what
    [lock_invariant] says about the thread known to be inside. *)
Local Ltac find_owner owner Hlock :=
  destruct owner as [[]|]; try discriminate;
  try (destruct Hlock; discriminate).

Lemma step_invariant calls1 calls2 i st st' :
  system_invariant calls1 calls2 st → step i st = Some st' →
  system_invariant calls1 calls2 st'.
Proof.
  destruct st as [m owner [pending1 pc1] [pending2 pc2]].
  intros (Hlock & [Hread1 Hread2] & history & Hmap & Hperm).
  unfold lock_invariant, reads_current, inside in *. simpl in *.
  unfold system_invariant, lock_invariant, read_invariant, reads_current,
    history_invariant, inside, step.
  destruct i; simpl.
  - destruct pc1 as [| |seen|]; destruct pending1 as [|[name time] rest];
      try discriminate.
    + (* the guard is constructed *)
      find_owner owner Hlock. intros [= <-]. simpl.
      destruct Hlock as [_ Hlock]. eauto 10.
    + (* the body reads *)
      intros [= <-]. simpl. eauto 10.
    + (* the body writes *)
      intros [= <-]. simpl. find_owner owner Hlock.
      destruct Hlock as [_ Hlock]. destruct pc2; try discriminate.
      split; [done|]. split; [done|].
      exists (history ++ [(name, time)]). subst m seen.
      split; [apply record_calls_write_back|].
      rewrite <- Hperm, <- (assoc_L (++)). reflexivity.
    + (* the guard is destroyed, no call left *)
      intros [= <-]. simpl. find_owner owner Hlock.
      destruct Hlock as [_ Hlock]. eauto 10.
    + (* the guard is destroyed *)
      intros [= <-]. simpl. find_owner owner Hlock.
      destruct Hlock as [_ Hlock]. eauto 10.
  - destruct pc2 as [| |seen|]; destruct pending2 as [|[name time] rest];
      try discriminate.
    + find_owner owner Hlock. intros [= <-]. simpl.
      destruct Hlock as [Hlock _]. eauto 10.
    + intros [= <-]. simpl. eauto 10.
    + intros [= <-]. simpl. find_owner owner Hlock.
      destruct Hlock as [Hlock _]. destruct pc1; try discriminate.
      split; [done|]. split; [done|].
      exists (history ++ [(name, time)]). subst m seen.
      split; [apply record_calls_write_back|].
      rewrite <- Hperm, <- (assoc_L (++)). apply Permutation_app_head.
      exact (Permutation_middle pending1 rest (name, time)).
    + intros [= <-]. simpl. find_owner owner Hlock.
      destruct Hlock as [Hlock _]. eauto 10.
    + intros [= <-]. simpl. find_owner owner Hlock.
      destruct Hlock as [Hlock _]. eauto 10.
Qed.

Lemma initial_invariant calls1 calls2 :
  system_invariant calls1 calls2 (initial calls1 calls2).
Proof.
  split; [done|]. split; [done|]. exists []. done.
Qed.

Lemma run_schedule_invariant calls1 calls2 schedule st st' :
  system_invariant calls1 calls2 st → run_schedule schedule st = Some st' →
  system_invariant calls1 calls2 st'.
Proof.
  revert st. induction schedule as [|i schedule IH]; intros st Hinv; simpl.
  - by intros [= <-].
  - destruct (step i st) as [st1|] eqn:Hstep; [|discriminate].
    apply IH. by apply (step_invariant _ _ i st).
Qed.

Lemma step_progress calls1 calls2 st :
  system_invariant calls1 calls2 st → finished st = false →
  ∃ i st', step i st = Some st'.
Proof.
  destruct st as [m owner [pending1 pc1] [pending2 pc2]].
  intros (Hlock & [Hread1 Hread2] & _).
  unfold lock_invariant, reads_current, inside, finished, thread_finished,
    step in *. simpl in *.
  intros Hfinished.
  destruct owner as [[]|]; destruct Hlock as [Hin1 Hin2].
  - exists T1. simpl.
    destruct pc1 as [| |seen|]; [discriminate| | |];
      destruct pending1 as [|[name time] rest]; try done; eauto.
  - exists T2. simpl.
    destruct pc2 as [| |seen|]; [discriminate| | |];
      destruct pending2 as [|[name time] rest]; try done; eauto.
  - destruct pc1; try discriminate. destruct pc2; try discriminate.
    destruct pending1 as [|c1 rest1].
    + destruct pending2 as [|c2 rest2]; [discriminate|].
      exists T2. simpl. eauto.
    + exists T1. simpl. eauto.
Qed.

Lemma sum_times_Permutation ts ts' : ts ≡ₚ ts' → sum_times ts = sum_times ts'.
Proof.
  induction 1 as [|t ts ts' _ IH|t u ts|ts ts' ts'' _ IH _ IH']; simpl;
    [reflexivity|by rewrite IH|lia|congruence].
Qed.

Lemma summary_Permutation ts ts' : ts ≡ₚ ts' → summary ts = summary ts'.
Proof.
  intros Hperm. destruct ts as [|t ts], ts' as [|t' ts'].
  - reflexivity.
  - by apply Permutation_nil_cons in Hperm.
  - symmetry in Hperm. by apply Permutation_nil_cons in Hperm.
  - unfold summary. f_equal. f_equal.
    + by rewrite (sum_times_Permutation _ _ Hperm).
    + apply N.le_antisymm.
      * apply foldl_min_lower. rewrite Hperm. apply foldl_min_elem.
      * apply foldl_min_lower. rewrite <- Hperm. apply foldl_min_elem.
    + apply N.le_antisymm.
      * apply foldl_max_upper. rewrite <- Hperm. apply foldl_max_elem.
      * apply foldl_max_upper. rewrite Hperm. apply foldl_max_elem.
    + by rewrite (Permutation_length Hperm).
Qed.

Lemma times_of_Permutation name calls calls' :
  calls ≡ₚ calls' → times_of name calls ≡ₚ times_of name calls'.
Proof. intros Hperm. unfold times_of. by rewrite Hperm. Qed.

(** Linearisation: a schedule that runs both threads to the end leaves,
    under every name, the statistics of all the calls of both threads. *)
Lemma run_schedule_lookup calls1 calls2 schedule st name :
  Forall (λ c, is_u64 c.2) (calls1 ++ calls2) →
  run_schedule schedule (initial calls1 calls2) = Some st →
  finished st = true →
  function_info_map_ st !! name = summary (times_of name (calls1 ++ calls2)).
Proof.
  intros Hu Hrun Hfinished.
  destruct (run_schedule_invariant calls1 calls2 schedule _ _
              (initial_invariant calls1 calls2) Hrun)
    as (_ & _ & history & Hmap & Hperm).
  destruct st as [m owner [pending1 pc1] [pending2 pc2]].
  unfold finished, thread_finished in Hfinished. simpl in *.
  destruct pending1; [|discriminate]. destruct pc1; try discriminate.
  destruct pending2; [|discriminate]. simpl in Hperm.
  rewrite app_nil_r in Hperm. subst m.
  rewrite record_calls_lookup by (by rewrite Hperm).
  apply summary_Permutation, times_of_Permutation, Hperm.
Qed.

(** C9.  One thread makes 1000 calls [AddFunctionTime("kernelA", 100)]
    and another 1000 calls [AddFunctionTime("kernelA", 300)].  Whatever
    the schedule, once both threads are through the entry of "kernelA"
    holds [call_count = 2000], [total_time = 400000], [min_time = 100]
    and [max_time = 300]; and no schedule gets stuck before that: in
    every state reached in which a thread still has work, some thread
    can take a step. *)
Theorem concurrent_kernelA_statistics (schedule : list tid) (st : system) :
  run_schedule schedule
    (initial (replicate 1000 ("kernelA"%string, 100))
             (replicate 1000 ("kernelA"%string, 300))) = Some st →
  (finished st = true →
     function_info_map_ st !! "kernelA"%string =
       Some (mkFunction 400000 100 300 2000)) ∧
  (finished st = false → ∃ i st', step i st = Some st').
Proof.
  intros Hrun. split.
  - intros Hfinished.
    rewrite (run_schedule_lookup (replicate 1000 ("kernelA"%string, 100))
               (replicate 1000 ("kernelA"%string, 300)) schedule st "kernelA");
      [| |exact Hrun|exact Hfinished].
    + vm_compute. reflexivity.
    + apply Forall_app. split; apply Forall_replicate; reflexivity.
  - apply (step_progress (replicate 1000 ("kernelA"%string, 100))
             (replicate 1000 ("kernelA"%string, 300))).
    exact (run_schedule_invariant _ _ schedule _ _
             (initial_invariant _ _) Hrun).
Qed.

Lemma concurrent_kernelA_statistics_witness :
  let schedule := concat (replicate 1000 [T1; T1; T1; T1; T2; T2; T2; T2]) in
  ∃ st,
    run_schedule schedule
      (initial (replicate 1000 ("kernelA"%string, 100))
               (replicate 1000 ("kernelA"%string, 300))) = Some st ∧
    finished st = true ∧
    function_info_map_ st !! "kernelA"%string =
      Some (mkFunction 400000 100 300 2000).
Proof.
  intros schedule.
  destruct (run_schedule schedule
              (initial (replicate 1000 ("kernelA"%string, 100))
                       (replicate 1000 ("kernelA"%string, 300))))
    as [st|] eqn:Hrun.
  - exists st.
    assert (Hfinished : finished st = true).
    { vm_compute in Hrun. by injection Hrun as <-. }
    split; [reflexivity|]. split; [exact Hfinished|].
    exact (proj1 (concurrent_kernelA_statistics schedule st Hrun) Hfinished).
  - vm_compute in Hrun. discriminate Hrun.
Defined.

(** * Lemmas on the record iterator *)

Lemma record_bytes_length L kind :
  layout_ok L →
  length (record_bytes L kind) = N.to_nat (sizeof_record L kind).
Proof.
  intros HL. unfold record_bytes.
  rewrite length_app, length_replicate, (write_header_length L HL).
  pose proof (sizeof_record_header L HL kind). lia.
Qed.

Lemma encode_records_cons L kind kinds :
  encode_records L (kind :: kinds) = record_bytes L kind ++ encode_records L kinds.
Proof. reflexivity. Qed.

Lemma next_at_end L bytes it :
  cursor it = buffer_size bytes →
  ptiViewGetNextRecord L (Some bytes) (buffer_size bytes) (Some it) =
    (PTI_STATUS_END_OF_BUFFER, Some it).
Proof. intros Hc. simpl. by rewrite Hc, N.eqb_refl. Qed.

Lemma next_at_record L pre kind rest it :
  layout_ok L →
  cursor it = buffer_size pre →
  ptiViewGetNextRecord L (Some (pre ++ record_bytes L kind ++ rest))
      (buffer_size (pre ++ record_bytes L kind ++ rest)) (Some it) =
    (PTI_SUCCESS,
     Some (mkIterator (cursor it + sizeof_record L kind)
             (Some (mkView (cursor it) kind (sizeof_record L kind))))).
Proof.
  intros HL Hc. unfold ptiViewGetNextRecord, buffer_size in *.
  pose proof (header_size_pos L HL) as Hpos.
  pose proof (sizeof_record_header L HL kind) as Hhdr.
  pose proof (record_bytes_length L kind HL) as Hlen.
  rewrite !length_app, Hlen, Hc.
  destruct (N.eqb_spec (N.of_nat (length pre))
              (N.of_nat (length pre + (N.to_nat (sizeof_record L kind) +
                                       length rest)))) as [Heq|_]; [lia|].
  destruct (N.ltb_spec
              (N.of_nat (length pre + (N.to_nat (sizeof_record L kind) +
                                       length rest)))
              (N.of_nat (length pre) + header_size L)) as [Hlt|_]; [lia|].
  rewrite Nat2N.id, drop_app_length. unfold record_bytes at 1.
  rewrite <- (assoc_L (++)),
    (read_write_header L HL _ _ _ (sizeof_record_u32 L HL kind)).
  destruct (N.ltb_spec (sizeof_record L kind) (header_size L)) as [Hlt|_];
    [lia|].
  destruct (N.ltb_spec
              (N.of_nat (length pre + (N.to_nat (sizeof_record L kind) +
                                       length rest)))
              (N.of_nat (length pre) + sizeof_record L kind)) as [Hlt|_];
    [lia|].
  reflexivity.
Qed.

Lemma drain_records L kinds :
  layout_ok L →
  ∀ pre it fuel,
    cursor it = buffer_size pre → (length kinds < fuel)%nat →
    drain fuel L (Some (pre ++ encode_records L kinds))
        (buffer_size (pre ++ encode_records L kinds)) it =
      Some (views_from L (cursor it) kinds, PTI_STATUS_END_OF_BUFFER,
            mkIterator (buffer_size (pre ++ encode_records L kinds))
              (from_option Some (current_record it)
                 (last (views_from L (cursor it) kinds)))).
Proof.
  intros HL. induction kinds as [|kind kinds IH]; intros pre it fuel Hc Hfuel;
    (destruct fuel as [|fuel]; [simpl in Hfuel; lia|]).
  - unfold encode_records. simpl concat. rewrite app_nil_r.
    cbn [drain]. rewrite (next_at_end L pre it Hc). simpl.
    rewrite <- Hc. by destruct it.
  - rewrite encode_records_cons. cbn [drain].
    rewrite (next_at_record L pre kind _ it HL Hc).
    cbn [current_record].
    rewrite (assoc_L (++)).
    rewrite (IH (pre ++ record_bytes L kind)
               (mkIterator (cursor it + sizeof_record L kind)
                  (Some (mkView (cursor it) kind (sizeof_record L kind))))
               fuel).
    + cbn [cursor current_record views_from]. rewrite last_cons.
      by destruct (last (views_from L (cursor it + sizeof_record L kind) kinds)).
    + cbn [cursor]. unfold buffer_size in *.
      rewrite length_app, (record_bytes_length L kind HL), Hc. lia.
    + simpl in Hfuel. lia.
Qed.

Lemma views_from_kinds L offset kinds :
  view_kind <$> views_from L offset kinds = kinds.
Proof.
  revert offset. induction kinds as [|kind kinds IH]; intros offset; simpl;
    [reflexivity|]. by rewrite IH.
Qed.

Lemma last_views_from L offset kind kinds current :
  is_Some (from_option Some current
             (last (views_from L offset (kind :: kinds)))).
Proof.
  cbn [views_from]. rewrite last_cons.
  destruct (last (views_from L (offset + sizeof_record L kind) kinds)); eauto.
Qed.

Lemma parse_loop_drain L bytes fuel :
  ∀ it c views it',
    drain fuel L (Some bytes) (buffer_size bytes) it =
      Some (views, PTI_STATUS_END_OF_BUFFER, it') →
    parse_loop fuel L bytes it c =
      Some (LoopLeft (foldl (λ c kind, count_record kind c) c
                        (view_kind <$> views))).
Proof.
  induction fuel as [|fuel IH]; intros it c views it'; [discriminate|].
  cbn [drain parse_loop].
  destruct (ptiViewGetNextRecord L (Some bytes) (buffer_size bytes) (Some it))
    as [[] [next|]]; try (intros [= <- <-]; reflexivity); try discriminate.
  destruct (current_record next) as [view|]; [|discriminate].
  destruct (drain fuel L (Some bytes) (buffer_size bytes) next)
    as [[[views' status] it'']|] eqn:Hdrain; [|discriminate].
  intros [= <- -> <-]. rewrite fmap_cons. cbn [foldl].
  by apply (IH next _ views' it'').
Qed.

(** ** The sample layout is a layout *)

Lemma to_N_byte_of_N n : Byte.to_N (byte_of_N n) = n mod 256.
Proof.
  unfold byte_of_N. destruct (Byte.of_N (n mod 256)) as [b|] eqn:Hb; simpl.
  - by apply Byte.to_of_N.
  - apply Byte.of_N_None_iff in Hb.
    pose proof (N.mod_upper_bound n 256). lia.
Qed.

Lemma read_write_u32 n rest :
  n < u32_modulus → read_u32 (write_u32 n ++ rest) = n.
Proof.
  intros Hn. unfold read_u32, write_u32. simpl.
  rewrite !to_N_byte_of_N.
  replace (n / 65536) with (n / 256 / 256)
    by (by rewrite N.Div0.div_div).
  replace (n / 16777216) with (n / 256 / 256 / 256)
    by (by rewrite !N.Div0.div_div).
  assert (Hnz : 256 ≠ 0) by discriminate.
  pose proof (N.div_mod n 256 Hnz) as H0.
  pose proof (N.div_mod (n / 256) 256 Hnz) as H1.
  pose proof (N.div_mod (n / 256 / 256) 256 Hnz) as H2.
  pose proof (N.div_mod (n / 256 / 256 / 256) 256 Hnz) as H3.
  pose proof (N.mod_upper_bound n 256 Hnz) as B0.
  pose proof (N.mod_upper_bound (n / 256) 256 Hnz) as B1.
  pose proof (N.mod_upper_bound (n / 256 / 256) 256 Hnz) as B2.
  pose proof (N.mod_upper_bound (n / 256 / 256 / 256) 256 Hnz) as B3.
  unfold u32_modulus in Hn. change (2 ^ 32) with 4294967296 in Hn.
  generalize dependent (n / 256 / 256 / 256 / 256).
  generalize dependent ((n / 256 / 256 / 256) mod 256).
  generalize dependent (n / 256 / 256 / 256).
  generalize dependent ((n / 256 / 256) mod 256).
  generalize dependent (n / 256 / 256).
  generalize dependent ((n / 256) mod 256).
  generalize dependent (n / 256).
  generalize dependent (n mod 256).
  intros. lia.
Qed.

Lemma sample_kind_tag kind : sample_kind (sample_tag kind) = Some kind.
Proof. by destruct kind. Qed.

Lemma sample_layout_ok : layout_ok sample_layout.
Proof.
  split.
  - reflexivity.
  - reflexivity.
  - intros kind size rest Hsize.
    cbn [sample_layout read_header write_header].
    rewrite <- (assoc_L (++)), read_write_u32.
    + rewrite sample_kind_tag. f_equal.
      change (drop 4 (write_u32 (sample_tag kind) ++ write_u32 size ++ rest))
        with (write_u32 size ++ rest).
      by apply read_write_u32.
    + by destruct kind.
  - by destruct kind.
  - by destruct kind.
Qed.

(** * Claims on the record iterator *)

(** C2 (as amended).  For every layout of the records, draining the
    buffer of the fixture (1 overhead record, 15 memory-copy records,
    15 memory-fill records, 100 external-correlation records, 3 kernel
    records and 1 overhead record, in this order) by repeated calls of
    [ptiViewGetNextRecord] returns the records in this order, hence
    those numbers per kind, and exactly 135 records in total, the value
    of [kTotalRecs]; the call after the last record returns
    [PTI_STATUS_END_OF_BUFFER] with the cursor at the end of the
    buffer and the last record still in the destination; the loop of [RegularParseRecordsTest] is left without
    [FAIL()] and its four expectations hold.  Any number of iterations
    above 135 is enough. *)
Theorem drain_test_buffer (L : layout) (fuel : nat) :
  layout_ok L → (kTotalRecs < fuel)%nat →
  ∃ views it,
    drain fuel L (Some (test_buf_ L)) (buffer_size (test_buf_ L))
        iterator_start =
      Some (views, PTI_STATUS_END_OF_BUFFER, it) ∧
    view_kind <$> views = concat test_inserts ∧
    count_kind PTI_VIEW_COLLECTION_OVERHEAD (view_kind <$> views) = 2%nat ∧
    count_kind PTI_VIEW_DEVICE_GPU_MEM_COPY (view_kind <$> views) = 15%nat ∧
    count_kind PTI_VIEW_DEVICE_GPU_MEM_FILL (view_kind <$> views) = 15%nat ∧
    count_kind PTI_VIEW_EXTERNAL_CORRELATION (view_kind <$> views) = 100%nat ∧
    count_kind PTI_VIEW_DEVICE_GPU_KERNEL (view_kind <$> views) = 3%nat ∧
    length views = 135%nat ∧
    cursor it = buffer_size (test_buf_ L) ∧
    is_Some (current_record it) ∧
    RegularParseRecordsTest fuel L = Some (LoopLeft (mkCounters 135 15 3 2)) ∧
    expectations_met (mkCounters 135 15 3 2).
Proof.
  intros HL Hfuel.
  pose proof (drain_records L (concat test_inserts) HL [] iterator_start fuel
                eq_refl Hfuel) as Hdrain.
  rewrite app_nil_l in Hdrain.
  change (encode_records L (concat test_inserts)) with (test_buf_ L) in Hdrain.
  eexists _, _. split; [exact Hdrain|].
  rewrite views_from_kinds.
  split; [reflexivity|]. do 5 (split; [reflexivity|]).
  split.
  { rewrite <- (length_fmap view_kind), views_from_kinds. reflexivity. }
  split; [reflexivity|]. split.
  { exact (last_views_from L 0 PTI_VIEW_COLLECTION_OVERHEAD
             (tail (concat test_inserts)) None). }
  split.
  - unfold RegularParseRecordsTest.
    rewrite (parse_loop_drain _ _ _ _ _ _ _ Hdrain), views_from_kinds.
    reflexivity.
  - repeat split.
Qed.

Lemma drain_test_buffer_witness :
  layout_ok sample_layout ∧ (kTotalRecs < 136)%nat ∧
  RegularParseRecordsTest 136 sample_layout =
    Some (LoopLeft (mkCounters 135 15 3 2)).
Proof.
  assert (Hfuel : (kTotalRecs < 136)%nat) by (unfold kTotalRecs, kNumOhRecs, kNumMemRecs, kNumKernelRecs,
          kNumExtRecs; lia).
  split; [exact sample_layout_ok|]. split; [exact Hfuel|].
  destruct (drain_test_buffer sample_layout 136 sample_layout_ok Hfuel)
    as (views & it & _ & _ & _ & _ & _ & _ & _ & _ & _ & _ & Htest & _).
  exact Htest.
Defined.

(** C2, counterexample to the claim as first stated: the records of the
    scenario are 1 + 15 + 15 + 100 + 3 + 1 = 135, not 136; in the sample
    layout 135 calls succeed and the next one ends the buffer. *)
Lemma test_buffer_total_is_not_136 :
  option_map (λ r : list record_view * pti_result * iterator,
                (length r.1.1, r.1.2))
    (drain 200 sample_layout (Some (test_buf_ sample_layout))
       (buffer_size (test_buf_ sample_layout)) iterator_start) =
    Some (135%nat, PTI_STATUS_END_OF_BUFFER) ∧
  kTotalRecs = 135%nat ∧ 135%nat ≠ 136%nat.
Proof.
  split; [vm_compute; reflexivity|]. split; [reflexivity|discriminate].
Qed.

(** C5.  With a null buffer and a destination that is not null the call
    returns [PTI_STATUS_END_OF_BUFFER] for every size, the largest
    [size_t] included, and leaves the destination as it was. *)
Theorem null_buffer_is_end_of_buffer (L : layout) (size : N) (it : iterator) :
  ptiViewGetNextRecord L None size (Some it) =
    (PTI_STATUS_END_OF_BUFFER, Some it) ∧
  ptiViewGetNextRecord L None (u64_modulus - 1) (Some it) =
    (PTI_STATUS_END_OF_BUFFER, Some it).
Proof. split; reflexivity. Qed.

(** C6.  With a null destination the call returns
    [PTI_ERROR_BAD_ARGUMENT], whatever the buffer (null or not) and the
    size are: the destination is checked before the buffer. *)
Theorem null_record_is_bad_argument
    (L : layout) (buffer : option (list byte)) (size : N) :
  ptiViewGetNextRecord L buffer size None = (PTI_ERROR_BAD_ARGUMENT, None) ∧
  ptiViewGetNextRecord L None size None = (PTI_ERROR_BAD_ARGUMENT, None).
Proof. split; reflexivity. Qed.

(** C7.  Once the cursor equals [size], the call returns
    [PTI_STATUS_END_OF_BUFFER], and so does every further call on the
    same arguments; none of them moves the cursor or changes the record
    returned last, and none reports an error. *)
Theorem end_of_buffer_is_final (L : layout) (buffer : option (list byte))
    (size : N) (it : iterator) (n : nat) :
  cursor it = size →
  ptiViewGetNextRecord L buffer size (Some it) =
    (PTI_STATUS_END_OF_BUFFER, Some it) ∧
  call_again n L buffer size (Some it) =
    (replicate n PTI_STATUS_END_OF_BUFFER, Some it).
Proof.
  intros Hc.
  assert (Hone : ptiViewGetNextRecord L buffer size (Some it) =
                   (PTI_STATUS_END_OF_BUFFER, Some it)).
  { unfold ptiViewGetNextRecord. destruct buffer; [|reflexivity].
    by rewrite Hc, N.eqb_refl. }
  split; [exact Hone|].
  induction n as [|n IH]; [reflexivity|].
  cbn [call_again]. rewrite Hone, IH. reflexivity.
Qed.

Lemma end_of_buffer_is_final_witness :
  let it :=
    mkIterator 6456 (Some (mkView 6408 PTI_VIEW_COLLECTION_OVERHEAD 48)) in
  buffer_size (test_buf_ sample_layout) = 6456 ∧
  call_again 3 sample_layout (Some (test_buf_ sample_layout)) 6456 (Some it) =
    ([PTI_STATUS_END_OF_BUFFER; PTI_STATUS_END_OF_BUFFER;
      PTI_STATUS_END_OF_BUFFER], Some it).
Proof.
  intros it. split; [vm_compute; reflexivity|].
  exact (proj2 (end_of_buffer_is_final sample_layout
                  (Some (test_buf_ sample_layout)) 6456 it 3 eq_refl)).
Defined.

(** * Lemmas on the registration of callbacks *)

Lemma max_record_size_ge L kind : sizeof_record L kind ≤ max_record_size L.
Proof. unfold max_record_size. destruct kind; simpl; lia. Qed.

Lemma request_callback_eqb_size a b :
  request_callback_eqb a b = true → request_size a = request_size b.
Proof.
  unfold request_callback_eqb. intros [_ H]%andb_prop. by apply N.eqb_eq.
Qed.

Lemma request_callback_eqb_refl a : request_callback_eqb a a = true.
Proof.
  unfold request_callback_eqb. by rewrite String.eqb_refl, N.eqb_refl.
Qed.

Lemma ptiViewSetCallbacks_adequate L request completed st :
  registered_adequate L st →
  registered_adequate L (ptiViewSetCallbacks L request completed st).2.
Proof.
  intros Hst. unfold ptiViewSetCallbacks.
  destruct (N.ltb_spec (request_size request) (max_record_size L)) as [Hlt|Hge].
  - exact Hst.
  - intros request' completed' [= <- _]. exact Hge.
Qed.

Lemma tracing_step_registered call st :
  registered (tracing_step call st) = registered st.
Proof.
  destruct call as [kind|kind| |]; simpl; try reflexivity.
  - by destruct (existsb _ _).
  - by destruct (registered st) as [[request completed]|] eqn:Hreg.
Qed.

Lemma run_tracing_registered calls st :
  registered (run_tracing calls st) = registered st.
Proof.
  revert st. induction calls as [|call calls IH]; intros st; [reflexivity|].
  unfold run_tracing in *. simpl. by rewrite IH, tracing_step_registered.
Qed.

Lemma run_api_adequate L calls st :
  registered_adequate L st → registered_adequate L (run_api L calls st).
Proof.
  revert st. induction calls as [|call calls IH]; intros st Hst; [exact Hst|].
  unfold run_api in *. simpl. apply IH.
  destruct call as [request completed|call]; simpl.
  - by apply ptiViewSetCallbacks_adequate.
  - unfold registered_adequate. rewrite tracing_step_registered. exact Hst.
Qed.

Lemma tracing_step_invocations L request call st :
  registered_adequate L st → request_size request < max_record_size L →
  invocations request (tracing_step call st) = invocations request st.
Proof.
  intros Hst Hsmall. destruct call as [kind|kind| |]; simpl; try reflexivity.
  - by destruct (existsb _ _).
  - destruct (registered st) as [[request' completed]|] eqn:Hreg;
      [|reflexivity].
    unfold invocations. simpl. rewrite filter_cons.
    destruct (decide (request_callback_eqb request' request = true))
      as [Heq|_]; [|reflexivity].
    apply request_callback_eqb_size in Heq.
    pose proof (Hst request' completed Hreg). lia.
Qed.

Lemma run_tracing_invocations L request calls st :
  registered_adequate L st → request_size request < max_record_size L →
  invocations request (run_tracing calls st) = invocations request st.
Proof.
  intros Hst Hsmall. revert st Hst.
  induction calls as [|call calls IH]; intros st Hst; [reflexivity|].
  unfold run_tracing in *. simpl. rewrite IH.
  - by apply (tracing_step_invocations L).
  - unfold registered_adequate. rewrite tracing_step_registered. exact Hst.
Qed.

(** The callbacks of the two negative tests are too small for every
    layout; [BufferRequested] is large enough when the kernel record is
    the largest one. *)
Lemma fixture_request_sizes L :
  layout_ok L →
  request_size (InadequateBufferRequested L) < max_record_size L ∧
  request_size (NullBufferRequested L) < max_record_size L ∧
  (max_record_size L = sizeof_record L PTI_VIEW_DEVICE_GPU_KERNEL →
   max_record_size L ≤ request_size (BufferRequested L)).
Proof.
  intros HL.
  pose proof (header_size_pos L HL) as Hpos.
  pose proof (sizeof_record_header L HL PTI_VIEW_DEVICE_GPU_KERNEL) as Hk.
  pose proof (max_record_size_ge L PTI_VIEW_DEVICE_GPU_KERNEL) as Hmax.
  unfold InadequateBufferRequested, NullBufferRequested, BufferRequested.
  simpl. repeat split; lia.
Qed.

(** * Claims on the registration of callbacks *)

(** C4.  In any state the collector can be in, registering a request
    callback that supplies less than the largest record size is
    answered with [PTI_ERROR_BAD_ARGUMENT] at once; the callbacks in use
    and the enabled views stay as they were; the callback has been
    invoked once, for the validation; and whatever tracing follows, it
    is not invoked again and the callbacks in use still are the earlier
    ones. *)
Theorem inadequate_callback_rejected (L : layout) (before : list api_call)
    (request : request_callback) (completed : string)
    (after : list tracing_call) :
  request_size request < max_record_size L →
  let st := run_api L before initial_collector in
  let rejected := ptiViewSetCallbacks L request completed st in
  rejected.1 = PTI_ERROR_BAD_ARGUMENT ∧
  registered rejected.2 = registered st ∧
  enabled_views rejected.2 = enabled_views st ∧
  invocations request rejected.2 = S (invocations request st) ∧
  invocations request (run_tracing after rejected.2) =
    S (invocations request st) ∧
  registered (run_tracing after rejected.2) = registered st.
Proof.
  intros Hsmall st rejected.
  assert (Hst : registered_adequate L st).
  { apply run_api_adequate. intros request' completed' Hreg. discriminate. }
  assert (Hrejected : rejected =
    (PTI_ERROR_BAD_ARGUMENT,
     mkCollector (registered st) (enabled_views st)
       (request :: buffer_requests st))).
  { unfold rejected, ptiViewSetCallbacks.
    destruct (N.ltb_spec (request_size request) (max_record_size L)); [done|].
    lia. }
  assert (Honce : invocations request rejected.2 = S (invocations request st)).
  { rewrite Hrejected. unfold invocations. simpl. rewrite filter_cons.
    destruct (decide (request_callback_eqb request request = true))
      as [_|Hne]; [reflexivity|].
    by rewrite request_callback_eqb_refl in Hne. }
  split; [by rewrite Hrejected|]. split; [by rewrite Hrejected|].
  split; [by rewrite Hrejected|]. split; [exact Honce|]. split.
  - rewrite (run_tracing_invocations L); [exact Honce| |exact Hsmall].
    rewrite Hrejected. exact Hst.
  - rewrite run_tracing_registered. by rewrite Hrejected.
Qed.

Lemma inadequate_callback_rejected_witness :
  let request := InadequateBufferRequested sample_layout in
  request_size request < max_record_size sample_layout ∧
  (ptiViewSetCallbacks sample_layout request "BufferCompleted"
     initial_collector).1 = PTI_ERROR_BAD_ARGUMENT ∧
  invocations request
    (run_tracing (RunGemm 4)
       (ptiViewSetCallbacks sample_layout request "BufferCompleted"
          initial_collector).2) = 1%nat.
Proof.
  intros request.
  assert (Hsmall : request_size request < max_record_size sample_layout)
    by exact (proj1 (fixture_request_sizes sample_layout sample_layout_ok)).
  destruct (inadequate_callback_rejected sample_layout [] request
              "BufferCompleted" (RunGemm 4) Hsmall)
    as (Hstatus & _ & _ & _ & Hlater & _).
  split; [exact Hsmall|]. split; [exact Hstatus|exact Hlater].
Defined.

(** * Further properties of the aggregator *)

(** X1.  [operator>] is a strict order on the statistics: nothing is
    greater than itself, two records are never greater than each other,
    and greater-than is transitive. *)
Theorem Function_gt_strict_order (f g h : Function) :
  Function_gt f f = false ∧
  (Function_gt f g = true → Function_gt g f = false) ∧
  (Function_gt f g = true → Function_gt g h = true → Function_gt f h = true).
Proof.
  unfold Function_gt. repeat split.
  - rewrite N.eqb_refl. simpl. apply N.ltb_irrefl.
  - destruct (N.eqb_spec (total_time f) (total_time g)) as [Heq|Hne];
      destruct (N.eqb_spec (total_time g) (total_time f)) as [Heq'|Hne'];
      simpl; try congruence;
      intros H%N.ltb_lt; apply N.ltb_ge; lia.
  - destruct (N.eqb_spec (total_time f) (total_time g));
      destruct (N.eqb_spec (total_time g) (total_time h));
      destruct (N.eqb_spec (total_time f) (total_time h));
      simpl; intros H1%N.ltb_lt H2%N.ltb_lt; apply N.ltb_lt; lia.
Qed.

Lemma Function_gt_strict_order_witness :
  let f := mkFunction 9 1 5 3 in
  let g := mkFunction 9 2 4 2 in
  let h := mkFunction 7 7 7 1 in
  Function_gt f g = true ∧ Function_gt g h = true ∧
  Function_gt g f = false ∧ Function_gt f h = true.
Proof.
  intros f g h.
  destruct (Function_gt_strict_order f g h) as (_ & Hasym & Htrans).
  split; [reflexivity|]. split; [reflexivity|].
  split; [exact (Hasym eq_refl)|exact (Htrans eq_refl eq_refl)].
Defined.

(** X2.  The two operators agree: [f != g] holds exactly when one of
    [f > g] and [g > f] does, and [!=] is symmetric.  So of [f > g],
    [g > f] and [!(f != g)] exactly one holds. *)
Theorem Function_ne_iff_gt (f g : Function) :
  Function_ne f g = Function_gt f g || Function_gt g f ∧
  Function_ne f g = Function_ne g f ∧
  (Function_gt f g && Function_gt g f = false).
Proof.
  unfold Function_ne, Function_gt.
  rewrite (N.eqb_sym (total_time g) (total_time f)),
    (N.eqb_sym (call_count g) (call_count f)).
  destruct (N.eqb_spec (total_time f) (total_time g)) as [Ht|Ht]; simpl.
  - destruct (N.eqb_spec (call_count f) (call_count g)) as [Hc|Hc]; simpl.
    + rewrite Hc, N.ltb_irrefl. done.
    + destruct (N.ltb_spec (call_count g) (call_count f));
        destruct (N.ltb_spec (call_count f) (call_count g));
        simpl; repeat split; lia.
  - destruct (N.ltb_spec (total_time g) (total_time f));
      destruct (N.ltb_spec (total_time f) (total_time g));
      simpl; repeat split; lia.
Qed.

#[local] Set Warnings "-clear-no-such-hyp".

Lemma AddFunctionTime_dom name time m :
  dom (AddFunctionTime name time m) = {[name]} ∪ dom m.
Proof.
  unfold AddFunctionTime. destruct (map_count m name =? 0);
    by rewrite dom_insert_L.
Qed.

Lemma record_calls_app calls calls' :
  record_calls (calls ++ calls') =
    foldl (λ m c, AddFunctionTime c.1 c.2 m) (record_calls calls) calls'.
Proof. unfold record_calls. by rewrite foldl_app. Qed.

Lemma foldl_AddFunctionTime_dom calls m :
  dom (foldl (λ m c, AddFunctionTime c.1 c.2 m) m calls) =
    list_to_set calls.*1 ∪ dom m.
Proof.
  revert m. induction calls as [|[name time] calls IH]; intros m; simpl.
  - set_solver.
  - rewrite IH, AddFunctionTime_dom. set_solver.
Qed.

(** X3.  The map holds an entry for exactly the names that were called,
    and an entry never disappears: a name present after some calls is
    present after any further calls. *)
Theorem record_calls_keys (calls more : list (string * N)) (name : string) :
  dom (record_calls calls) = list_to_set calls.*1 ∧
  (is_Some (record_calls calls !! name) ↔ name ∈ calls.*1) ∧
  (is_Some (record_calls calls !! name) →
   is_Some (record_calls (calls ++ more) !! name)).
Proof.
  assert (Hdom : ∀ l, dom (record_calls l) =
                      list_to_set (C := gset string) l.*1).
  { intros l. unfold record_calls. rewrite foldl_AddFunctionTime_dom.
    set_solver. }
  split; [apply Hdom|]. split.
  - rewrite <- elem_of_dom, Hdom. set_solver.
  - rewrite <- !elem_of_dom, !Hdom, fmap_app. set_solver.
Qed.

Lemma record_calls_keys_witness :
  is_Some (record_calls [("clFinish"%string, 7)] !! "clFinish"%string) ∧
  is_Some (record_calls ([("clFinish"%string, 7)] ++ [("clFlush"%string, 1)])
             !! "clFinish"%string).
Proof.
  destruct (record_calls_keys [("clFinish"%string, 7)]
              [("clFlush"%string, 1)] "clFinish") as (_ & _ & Hkept).
  assert (H : is_Some (record_calls [("clFinish"%string, 7)]
                         !! "clFinish"%string)) by (eexists; reflexivity).
  split; [exact H|exact (Hkept H)].
Defined.

(** X4.  The statistics do not depend on the order of the calls: two
    histories of 64-bit times that are permutations of each other leave
    the same map. *)
Theorem record_calls_order_independent (calls calls' : list (string * N)) :
  Forall (λ c, is_u64 c.2) calls → calls ≡ₚ calls' →
  record_calls calls = record_calls calls'.
Proof.
  intros Hu Hperm. apply map_eq. intros name.
  rewrite !record_calls_lookup by (by rewrite <- ?Hperm).
  apply summary_Permutation, times_of_Permutation, Hperm.
Qed.

Lemma record_calls_order_independent_witness :
  record_calls [("clFinish"%string, 7); ("clFlush"%string, 3);
                ("clFinish"%string, 5)] =
  record_calls [("clFinish"%string, 5); ("clFinish"%string, 7);
                ("clFlush"%string, 3)].
Proof.
  apply record_calls_order_independent.
  - repeat constructor.
  - exact (Permutation_sym
             (Permutation_cons_append
                [("clFinish"%string, 7); ("clFlush"%string, 3)]
                ("clFinish"%string, 5))).
Defined.

Lemma summary_fields ts f :
  Forall is_u64 ts → summary ts = Some f →
  min_time f ≤ max_time f ∧
  is_u64 (total_time f) ∧ is_u64 (min_time f) ∧ is_u64 (max_time f) ∧
  is_u64 (call_count f).
Proof.
  intros Hu Hf. destruct ts as [|t ts]; [discriminate|].
  injection Hf as <-. cbn [total_time call_count min_time max_time].
  pose proof (foldl_min_le_init t ts) as Hmin.
  pose proof (foldl_max_ge_init t ts) as Hmax.
  pose proof (foldl_max_elem t ts) as Hin.
  assert (Ht : is_u64 t) by (by inversion Hu).
  assert (Hmx : is_u64 (foldl N.max t ts)).
  { by apply (proj1 (Forall_forall _ _) Hu). }
  unfold is_u64 in *. repeat split; try lia.
  - apply N.mod_upper_bound. discriminate.
  - apply N.mod_upper_bound. discriminate.
Qed.

Lemma times_of_u64 name calls :
  Forall (λ c, is_u64 c.2) calls → Forall is_u64 (times_of name calls).
Proof.
  intros Hu. unfold times_of. apply Forall_fmap.
  apply Forall_forall. intros c [_ Hc]%list_elem_of_filter.
  by apply (proj1 (Forall_forall _ _) Hu).
Qed.

(** X5.  After any history of calls with 64-bit times, every entry has
    [min_time ≤ max_time] and all its four fields are 64-bit values,
    whether or not [total_time] or [call_count] have wrapped around. *)
Theorem record_calls_entry_bounds (calls : list (string * N))
    (name : string) (f : Function) :
  Forall (λ c, is_u64 c.2) calls →
  record_calls calls !! name = Some f →
  min_time f ≤ max_time f ∧
  is_u64 (total_time f) ∧ is_u64 (min_time f) ∧ is_u64 (max_time f) ∧
  is_u64 (call_count f).
Proof.
  intros Hu Hf. rewrite (record_calls_lookup _ _ Hu) in Hf.
  apply (summary_fields (times_of name calls)); [|exact Hf].
  by apply times_of_u64.
Qed.

Lemma record_calls_entry_bounds_witness :
  let calls :=
    [("clFinish"%string, 9223372036854775808);
     ("clFinish"%string, 9223372036854775808)] in
  let f := mkFunction 0 9223372036854775808 9223372036854775808 2 in
  record_calls calls !! "clFinish"%string = Some f ∧
  min_time f ≤ max_time f ∧ is_u64 (total_time f).
Proof.
  intros calls f.
  assert (Hu : Forall (λ c, is_u64 c.2) calls) by (repeat constructor).
  assert (Hf : record_calls calls !! "clFinish"%string = Some f)
    by (vm_compute; reflexivity).
  destruct (record_calls_entry_bounds calls "clFinish" f Hu Hf)
    as (Hle & Htotal & _).
  split; [exact Hf|]. split; [exact Hle|exact Htotal].
Defined.

(** * Properties of the tracing callbacks *)

Lemma sub64_exact a b : is_u64 a → b ≤ a → sub64 a b = a - b.
Proof.
  unfold sub64, wrap64, is_u64. intros Ha Hb.
  rewrite (N.mod_small b) by lia.
  replace (a + (u64_modulus - b)) with ((a - b) + 1 * u64_modulus) by lia.
  rewrite N.Div0.mod_add. apply N.mod_small. lia.
Qed.

Lemma sub64_is_u64 a b : is_u64 (sub64 a b).
Proof. apply N.mod_upper_bound. discriminate. Qed.

Lemma run_callbacks_app events events' function_info_map memory :
  run_callbacks (events ++ events') function_info_map memory =
    match run_callbacks events function_info_map memory with
    | Some (function_info_map', memory') =>
        run_callbacks events' function_info_map' memory'
    | None => None
    end.
Proof.
  revert function_info_map memory.
  induction events as [|[timestamp data] events IH]; intros m memory;
    [reflexivity|].
  simpl. destruct (Callback timestamp data (Some m) memory) as [[m' memory']|];
    [apply IH|reflexivity].
Qed.

Lemma run_callbacks_slot events address function_info_map memory :
  Forall (λ e : N * cl_callback_data,
            is_exit e = false → correlationData e.2 ≠ address) events →
  ∃ function_info_map' memory',
    run_callbacks events function_info_map memory =
      Some (function_info_map', memory') ∧
    memory' address = memory address.
Proof.
  revert function_info_map memory.
  induction events as [|[timestamp data] events IH]; intros m memory Hother.
  - by exists m, memory.
  - apply Forall_cons in Hother as [Hdata Hother].
    unfold is_exit in Hdata. simpl in *. unfold Callback.
    destruct (site data); simpl.
    + destruct (IH m (store64 (correlationData data) timestamp memory) Hother)
        as (m' & memory' & Hrun & Hslot).
      exists m', memory'. split; [exact Hrun|]. rewrite Hslot.
      unfold store64.
      destruct (N.eqb_spec address (correlationData data)) as [Heq|_];
        [|reflexivity].
      by destruct (Hdata eq_refl).
    + apply IH, Hother.
Qed.

(** X6.  A call is timed by its two callbacks: when the enter callback
    of a call runs at clock reading [t0], any callbacks of other calls
    follow (none of them an enter callback on the same correlation
    slot), and the exit callback runs at a reading [t1 ≥ t0], then
    exactly [t1 - t0] is added under the name of the function, to the
    map as the callbacks in between left it. *)
Theorem enter_exit_records_elapsed
    (function_info_map : gmap string Function) (memory : N → N)
    (name : string) (slot t0 t1 : N) (between : list (N * cl_callback_data)) :
  is_u64 t1 → t0 ≤ t1 →
  Forall (λ e : N * cl_callback_data,
            is_exit e = false → correlationData e.2 ≠ slot) between →
  ∃ function_info_map' memory',
    run_callbacks
      ((t0, mkCallbackData CL_CALLBACK_SITE_ENTER name slot) :: between)
      function_info_map memory = Some (function_info_map', memory') ∧
    run_callbacks
      ((t0, mkCallbackData CL_CALLBACK_SITE_ENTER name slot) :: between ++
       [(t1, mkCallbackData CL_CALLBACK_SITE_EXIT name slot)])
      function_info_map memory =
      Some (AddFunctionTime name (t1 - t0) function_info_map', memory').
Proof.
  intros Ht1 Hle Hother.
  destruct (run_callbacks_slot between slot function_info_map
              (store64 slot t0 memory) Hother)
    as (m' & memory' & Hrun & Hslot).
  exists m', memory'. split; [exact Hrun|].
  rewrite app_comm_cons, run_callbacks_app.
  change (run_callbacks
            ((t0, mkCallbackData CL_CALLBACK_SITE_ENTER name slot) :: between)
            function_info_map memory)
    with (run_callbacks between function_info_map (store64 slot t0 memory)).
  rewrite Hrun. simpl. unfold Callback, OnFunctionExit. simpl.
  rewrite Hslot. unfold store64. rewrite N.eqb_refl.
  by rewrite (sub64_exact t1 t0 Ht1 Hle).
Qed.

Lemma enter_exit_records_elapsed_witness :
  ∃ function_info_map' memory',
    run_callbacks
      [(100, mkCallbackData CL_CALLBACK_SITE_ENTER "clFinish" 8);
       (120, mkCallbackData CL_CALLBACK_SITE_ENTER "clFlush" 16);
       (150, mkCallbackData CL_CALLBACK_SITE_EXIT "clFlush" 16)]
      ∅ (λ _, 0) = Some (function_info_map', memory') ∧
    run_callbacks
      [(100, mkCallbackData CL_CALLBACK_SITE_ENTER "clFinish" 8);
       (120, mkCallbackData CL_CALLBACK_SITE_ENTER "clFlush" 16);
       (150, mkCallbackData CL_CALLBACK_SITE_EXIT "clFlush" 16);
       (170, mkCallbackData CL_CALLBACK_SITE_EXIT "clFinish" 8)]
      ∅ (λ _, 0) =
      Some (AddFunctionTime "clFinish" 70 function_info_map', memory').
Proof.
  assert (Hu : is_u64 170) by reflexivity.
  assert (Hle : 100 ≤ 170) by discriminate.
  assert (Hother : Forall (λ e : N * cl_callback_data,
                             is_exit e = false → correlationData e.2 ≠ 8)
    [(120, mkCallbackData CL_CALLBACK_SITE_ENTER "clFlush" 16);
     (150, mkCallbackData CL_CALLBACK_SITE_EXIT "clFlush" 16)]).
  { repeat constructor; simpl; intros; discriminate. }
  exact (enter_exit_records_elapsed ∅ (λ _, 0) "clFinish" 8 100 170
           _ Hu Hle Hother).
Defined.

Lemma slot_after_snoc before e memory slot :
  slot_after (before ++ [e]) memory slot =
    if bool_decide (is_exit e = false ∧ correlationData e.2 = slot)
    then e.1 else slot_after before memory slot.
Proof.
  unfold slot_after. rewrite filter_app, filter_cons, filter_nil.
  case_bool_decide as He.
  - rewrite decide_True by exact He. by rewrite last_snoc.
  - rewrite decide_False by exact He. by rewrite app_nil_r.
Qed.

Lemma exits_after_u64 events :
  ∀ before memory, Forall (λ c, is_u64 c.2) (exits_after before events memory).
Proof.
  induction events as [|e events IH]; intros before memory; [constructor|].
  cbn [exits_after]. apply Forall_app. split; [|apply IH].
  destruct (is_exit e); repeat constructor. apply sub64_is_u64.
Qed.

Lemma exits_after_names events :
  ∀ before memory,
    (exits_after before events memory).*1 =
      (λ e : N * cl_callback_data, functionName e.2) <$>
        filter (λ e, is_exit e = true) events.
Proof.
  induction events as [|e events IH]; intros before memory; [reflexivity|].
  cbn [exits_after]. rewrite fmap_app, IH, filter_cons.
  destruct (is_exit e).
  - by rewrite decide_True.
  - by rewrite decide_False.
Qed.

Lemma exits_after_lookup events :
  ∀ before memory i timestamp data,
    events !! i = Some (timestamp, data) →
    site data = CL_CALLBACK_SITE_EXIT →
    (functionName data,
     sub64 timestamp
       (slot_after (before ++ take i events) memory (correlationData data)))
      ∈ exits_after before events memory.
Proof.
  induction events as [|e events IH]; intros before memory i timestamp data;
    [by rewrite lookup_nil|].
  cbn [exits_after]. destruct i as [|i]; simpl.
  - intros [= ->] Hexit. apply elem_of_app. left.
    unfold is_exit. simpl. rewrite Hexit, app_nil_r. left.
  - intros Hi Hexit. apply elem_of_app. right.
    rewrite (cons_middle e), (assoc_L (++)). by apply IH.
Qed.

Lemma run_callbacks_exits events memory :
  ∀ before function_info_map current,
    (∀ slot, current slot = slot_after before memory slot) →
    ∃ memory',
      run_callbacks events function_info_map current =
        Some (foldl (λ m c, AddFunctionTime c.1 c.2 m) function_info_map
                (exits_after before events memory),
              memory') ∧
      ∀ slot, memory' slot = slot_after (before ++ events) memory slot.
Proof.
  induction events as [|[timestamp [[] name slot0]] events IH];
    intros before m current Hcurrent.
  - exists current. split; [reflexivity|]. by rewrite app_nil_r.
  - destruct (IH (before ++ [(timestamp,
                    mkCallbackData CL_CALLBACK_SITE_ENTER name slot0)])
                m (store64 slot0 timestamp current))
      as (memory' & Hrun & Hslots).
    { intros slot. rewrite slot_after_snoc. unfold store64, is_exit. simpl.
      case_bool_decide as He.
      - destruct He as [_ <-]. by rewrite N.eqb_refl.
      - destruct (N.eqb_spec slot slot0) as [->|_]; [|apply Hcurrent].
        by destruct He. }
    exists memory'. split; [exact Hrun|].
    intros slot. by rewrite Hslots, <- (assoc_L (++)).
  - destruct (IH (before ++ [(timestamp,
                    mkCallbackData CL_CALLBACK_SITE_EXIT name slot0)])
                (AddFunctionTime name (sub64 timestamp (current slot0)) m)
                current)
      as (memory' & Hrun & Hslots).
    { intros slot. rewrite slot_after_snoc, bool_decide_false;
        [apply Hcurrent|]. intros [Hexit _]. discriminate Hexit. }
    exists memory'. split.
    + cbn [exits_after run_callbacks]. unfold Callback, is_exit. simpl.
      rewrite <- Hcurrent. exact Hrun.
    + intros slot. by rewrite Hslots, <- (assoc_L (++)).
Qed.

(** X7.  Whatever callbacks the tracer delivers, in whatever order and
    with whatever clock readings and slot contents, none of them
    aborts, and the map they leave is the replay of one
    [AddFunctionTime] call per exit callback, in order: the exit
    callback at position [i] records, under its function name, its
    clock reading minus (on [uint64_t]) the reading of the latest
    enter callback on its slot among the first [i] callbacks, or the
    initial content of the slot if there is none.  The slots end up
    holding the reading of their latest enter callback.  All recorded
    times are 64-bit, so every entry has [min_time ≤ max_time] and
    64-bit fields, and the names in the map are those of the exit
    callbacks. *)
Theorem callbacks_replay_exits
    (events : list (N * cl_callback_data)) (memory : N → N) :
  ∃ memory',
    run_callbacks events ∅ memory =
      Some (record_calls (exits_after [] events memory), memory') ∧
    (∀ slot, memory' slot = slot_after events memory slot) ∧
    (∀ i timestamp data,
       events !! i = Some (timestamp, data) →
       site data = CL_CALLBACK_SITE_EXIT →
       (functionName data,
        sub64 timestamp
          (slot_after (take i events) memory (correlationData data)))
         ∈ exits_after [] events memory) ∧
    Forall (λ c, is_u64 c.2) (exits_after [] events memory) ∧
    (exits_after [] events memory).*1 =
      (λ e : N * cl_callback_data, functionName e.2) <$>
        filter (λ e, is_exit e = true) events ∧
    ∀ name f,
      record_calls (exits_after [] events memory) !! name = Some f →
      min_time f ≤ max_time f ∧ is_u64 (total_time f) ∧
      is_u64 (min_time f) ∧ is_u64 (max_time f) ∧ is_u64 (call_count f).
Proof.
  destruct (run_callbacks_exits events memory [] ∅ memory)
    as (memory' & Hrun & Hslots); [done|].
  pose proof (exits_after_u64 events [] memory) as Hu.
  exists memory'. split; [exact Hrun|]. split; [exact Hslots|].
  split; [intros i timestamp data; apply (exits_after_lookup events [])|].
  split; [exact Hu|]. split; [apply exits_after_names|].
  intros name f Hf. rewrite (record_calls_lookup _ _ Hu) in Hf.
  apply (summary_fields (times_of name (exits_after [] events memory)));
    [|exact Hf].
  by apply times_of_u64.
Qed.

Lemma callbacks_replay_exits_witness :
  let events :=
    [(100, mkCallbackData CL_CALLBACK_SITE_ENTER "clFinish" 8);
     (120, mkCallbackData CL_CALLBACK_SITE_ENTER "clFlush" 16);
     (150, mkCallbackData CL_CALLBACK_SITE_EXIT "clFlush" 16);
     (170, mkCallbackData CL_CALLBACK_SITE_EXIT "clFinish" 8)] in
  events !! 3%nat =
    Some (170, mkCallbackData CL_CALLBACK_SITE_EXIT "clFinish" 8) ∧
  ("clFinish"%string, 70) ∈ exits_after [] events (λ _, 0) ∧
  exits_after [] events (λ _, 0) =
    [("clFlush"%string, 30); ("clFinish"%string, 70)].
Proof.
  intros events. split; [reflexivity|]. split; [|reflexivity].
  destruct (callbacks_replay_exits events (λ _, 0))
    as (memory' & _ & _ & Hexits & _).
  exact (Hexits 3%nat 170
           (mkCallbackData CL_CALLBACK_SITE_EXIT "clFinish" 8)
           eq_refl eq_refl).
Defined.

(** * Further properties of [PrintFunctionsTable] *)

Lemma max_name_length_of_bounds sorted :
  kFunctionLength ≤ max_name_length_of sorted ∧
  ∀ v, v ∈ sorted → N.of_nat (String.length v.1) ≤ max_name_length_of sorted.
Proof.
  unfold max_name_length_of. generalize kFunctionLength as acc.
  induction sorted as [|v sorted IH]; intros acc; simpl.
  - split; [lia|]. by intros v ?%elem_of_nil.
  - destruct (IH (if acc <? N.of_nat (String.length v.1)
                  then N.of_nat (String.length v.1) else acc)) as [Hacc Hall].
    destruct (N.ltb_spec acc (N.of_nat (String.length v.1))).
    + split; [lia|]. intros v' [->|Hv']%elem_of_cons; [lia|by apply Hall].
    + split; [lia|]. intros v' [->|Hv']%elem_of_cons; [lia|by apply Hall].
Qed.

Lemma print_rows_not_stopped total_duration sorted :
  (print_rows total_duration sorted).2 = false →
  (print_rows total_duration sorted).1 = row_of total_duration <$> sorted.
Proof.
  induction sorted as [|v rest IH]; simpl; [reflexivity|].
  destruct (call_count v.2 =? 0); [discriminate|].
  destruct (print_rows total_duration rest) as [rows stopped]. simpl in *.
  intros Hstop. by rewrite (IH Hstop).
Qed.

Lemma PrintFunctionsTable_rows tie m w rows :
  PrintFunctionsTable tie m = TablePrinted w rows →
  total_duration_of (sorted_list tie m) ≠ 0 ∧
  w = max_name_length_of (sorted_list tie m) ∧
  rows = row_of (total_duration_of (sorted_list tie m)) <$> sorted_list tie m.
Proof.
  unfold PrintFunctionsTable.
  destruct (N.eqb_spec (total_duration_of (sorted_list tie m)) 0) as [|Hnz];
    [discriminate|].
  pose proof (print_rows_not_stopped (total_duration_of (sorted_list tie m))
                (sorted_list tie m)) as Hrows.
  destruct (print_rows _ _) as [rows' []]; [discriminate|].
  intros [= <- <-]. split; [exact Hnz|]. split; [reflexivity|].
  by apply Hrows.
Qed.

(** X8.  The width of the first column is never below
    [kFunctionLength = 10] and never below the length of a function
    name in the table, whether the table is printed in full or stops
    at a zero [call_count]. *)
Theorem PrintFunctionsTable_name_column
    (tie : string → string → bool) (m : gmap string Function)
    (w : N) (rows : list Row) :
  PrintFunctionsTable tie m = TablePrinted w rows ∨
  PrintFunctionsTable tie m = DivisionByZero w rows →
  kFunctionLength ≤ w ∧
  Forall (λ r, N.of_nat (String.length (row_function r)) ≤ w) rows.
Proof.
  unfold PrintFunctionsTable.
  destruct (total_duration_of (sorted_list tie m) =? 0);
    [by intros [|]|].
  destruct (max_name_length_of_bounds (sorted_list tie m)) as [Hmin Hall].
  pose proof (print_rows_Forall
    (λ r, N.of_nat (String.length (row_function r)) ≤
          max_name_length_of (sorted_list tie m))
    (total_duration_of (sorted_list tie m)) (sorted_list tie m)) as Hrows.
  destruct (print_rows _ _) as [rows' stopped]. simpl in Hrows.
  assert (Hw : w = max_name_length_of (sorted_list tie m) ∧ rows = rows' →
    kFunctionLength ≤ w ∧
    Forall (λ r, N.of_nat (String.length (row_function r)) ≤ w) rows).
  { intros [-> ->]. split; [exact Hmin|].
    apply Hrows. intros v Hv _. simpl. by apply Hall. }
  destruct stopped; intros [[= <- <-]|[= <- <-]]; by apply Hw.
Qed.

Lemma PrintFunctionsTable_name_column_witness :
  PrintFunctionsTable string_gt
    {["clEnqueueNDRangeKernel"%string := mkFunction 30 30 30 1]} =
    TablePrinted 22 [mkRow "clEnqueueNDRangeKernel" 1 30 30 30 30 30] ∧
  kFunctionLength ≤ 22.
Proof.
  assert (H : PrintFunctionsTable string_gt
      {["clEnqueueNDRangeKernel"%string := mkFunction 30 30 30 1]} =
      TablePrinted 22 [mkRow "clEnqueueNDRangeKernel" 1 30 30 30 30 30])
    by (vm_compute; reflexivity).
  split; [exact H|].
  exact (proj1 (PrintFunctionsTable_name_column string_gt _ _ _ (or_introl H))).
Defined.

(** X9.  When the table is printed, the divisor of the percentages is
    the sum, modulo [2^64], of the times shown in its rows, and it is
    not zero; so the table has at least one row. *)
Theorem PrintFunctionsTable_total_duration
    (tie : string → string → bool) (m : gmap string Function)
    (w : N) (rows : list Row) :
  PrintFunctionsTable tie m = TablePrinted w rows →
  rows ≠ [] ∧
  wrap64 (sum_times (row_duration <$> rows)) ≠ 0 ∧
  Forall (λ r, row_total_duration r =
               wrap64 (sum_times (row_duration <$> rows))) rows.
Proof.
  intros (Hnz & _ & ->)%PrintFunctionsTable_rows.
  rewrite total_duration_of_sum in *.
  rewrite <- list_fmap_compose.
  change (row_duration ∘ row_of _)
    with (λ v : string * Function, total_time v.2).
  split.
  - intros Hnil%fmap_nil_inv. rewrite Hnil in Hnz. by apply Hnz.
  - split; [exact Hnz|].
    apply Forall_fmap, Forall_forall. by intros v _.
Qed.

Lemma PrintFunctionsTable_total_duration_witness :
  let m : gmap string Function :=
    <["clFlush"%string := mkFunction 7 7 7 1]>
      {["clFinish"%string := mkFunction 7 2 5 2]} in
  PrintFunctionsTable string_gt m =
    TablePrinted 10 [mkRow "clFinish" 2 7 14 3 2 5; mkRow "clFlush" 1 7 14 7 7 7] ∧
  Forall (λ r, row_total_duration r = 14)
    [mkRow "clFinish" 2 7 14 3 2 5; mkRow "clFlush" 1 7 14 7 7 7].
Proof.
  intros m.
  assert (H : PrintFunctionsTable string_gt m =
    TablePrinted 10
      [mkRow "clFinish" 2 7 14 3 2 5; mkRow "clFlush" 1 7 14 7 7 7])
    by (vm_compute; reflexivity).
  split; [exact H|].
  exact (proj2 (proj2 (PrintFunctionsTable_total_duration string_gt m _ _ H))).
Defined.

Lemma Function_ne_sym (a b : Function) : Function_ne a b = Function_ne b a.
Proof.
  unfold Function_ne.
  by rewrite (N.eqb_sym (total_time b)), (N.eqb_sym (call_count b)).
Qed.

Lemma Comparator_total tie a b :
  (∀ x y : string, x ≠ y → tie x y = true ∨ tie y x = true) →
  a.1 ≠ b.1 → Comparator tie a b = true ∨ Comparator tie b a = true.
Proof.
  intros Htie Hne. unfold Comparator. rewrite (Function_ne_sym b.2 a.2).
  destruct (Function_ne a.2 b.2) eqn:Hstat; [|by apply Htie].
  destruct (Function_gt a.2 b.2) eqn:Hgt; [by left|right].
  by apply Function_ne_gt_total.
Qed.

Lemma set_insert_Permutation tie x s :
  (∀ x y : string, x ≠ y → tie x y = true ∨ tie y x = true) →
  (∀ y, y ∈ s → y.1 ≠ x.1) →
  set_insert (Comparator tie) x s ≡ₚ x :: s.
Proof.
  intros Htie. induction s as [|y s IH]; intros Hfresh; simpl; [done|].
  destruct (Comparator tie y x) eqn:Hyx.
  - rewrite IH by (intros z Hz; apply Hfresh; by right). apply perm_swap.
  - destruct (Comparator tie x y) eqn:Hxy; [done|].
    destruct (Comparator_total tie y x Htie); [|congruence..].
    apply Hfresh. left.
Qed.

Lemma foldl_set_insert_Permutation tie es s :
  (∀ x y : string, x ≠ y → tie x y = true ∨ tie y x = true) →
  NoDup (es ++ s).*1 →
  foldl (λ s e, set_insert (Comparator tie) e s) s es ≡ₚ es ++ s.
Proof.
  intros Htie. revert s.
  induction es as [|e es IH]; intros s Hnodup; simpl; [done|].
  assert (Hinsert : set_insert (Comparator tie) e s ≡ₚ e :: s).
  { apply set_insert_Permutation; [exact Htie|].
    intros y Hy Heq. simpl in Hnodup. apply NoDup_cons in Hnodup as [Hnot _].
    apply Hnot. rewrite <- Heq. apply list_elem_of_fmap_2.
    apply elem_of_app. by right. }
  rewrite IH.
  - rewrite Hinsert. symmetry. apply Permutation_middle.
  - rewrite Hinsert. simpl in Hnodup.
    by rewrite fmap_app, fmap_cons, <- Permutation_middle, <- fmap_app.
Qed.

Lemma sorted_list_Permutation tie m :
  (∀ x y : string, x ≠ y → tie x y = true ∨ tie y x = true) →
  sorted_list tie m ≡ₚ map_to_list m.
Proof.
  intros Htie. unfold sorted_list.
  rewrite foldl_set_insert_Permutation, app_nil_r; [|exact Htie|].
  - unfold map_entries. apply merge_sort_Permutation.
  - rewrite app_nil_r. unfold map_entries. rewrite merge_sort_Permutation.
    apply NoDup_fst_map_to_list.
Qed.

Lemma entry_of_row_of total_duration v : entry_of (row_of total_duration v) = v.
Proof. by destruct v as [name []]. Qed.

Lemma entry_of_rows total_duration (l : list (string * Function)) :
  entry_of <$> (row_of total_duration <$> l) = l.
Proof.
  induction l as [|v l IH]; [reflexivity|].
  by rewrite !fmap_cons, entry_of_row_of, IH.
Qed.

Lemma string_gt_total (x y : string) :
  x ≠ y → string_gt x y = true ∨ string_gt y x = true.
Proof.
  intros Hne. unfold string_gt, String.ltb.
  rewrite (String.compare_antisym x y).
  destruct (String.compare y x) eqn:Hc; simpl; [|by left|by right].
  apply String.compare_eq_iff in Hc. by destruct Hne.
Qed.

(** X10.  When the comparator separates any two different names (as a
    comparison of the names does), no entry is lost in the set: the
    rows of a printed table are exactly the entries of the map, one row
    each. *)
Theorem PrintFunctionsTable_one_row_per_entry
    (tie : string → string → bool) (m : gmap string Function)
    (w : N) (rows : list Row) :
  (∀ x y : string, x ≠ y → tie x y = true ∨ tie y x = true) →
  PrintFunctionsTable tie m = TablePrinted w rows →
  entry_of <$> rows ≡ₚ map_to_list m ∧ length rows = size m.
Proof.
  intros Htie (_ & _ & ->)%PrintFunctionsTable_rows.
  split.
  - rewrite entry_of_rows. by apply sorted_list_Permutation.
  - rewrite length_fmap, (sorted_list_Permutation tie m Htie).
    apply length_map_to_list.
Qed.

Lemma PrintFunctionsTable_one_row_per_entry_witness :
  let m : gmap string Function :=
    <["clFlush"%string := mkFunction 7 7 7 1]>
      {["clFinish"%string := mkFunction 7 7 7 1]} in
  PrintFunctionsTable string_gt m =
    TablePrinted 10 [mkRow "clFlush" 1 7 14 7 7 7; mkRow "clFinish" 1 7 14 7 7 7] ∧
  size m = 2%nat.
Proof.
  intros m.
  assert (H : PrintFunctionsTable string_gt m =
    TablePrinted 10
      [mkRow "clFlush" 1 7 14 7 7 7; mkRow "clFinish" 1 7 14 7 7 7])
    by (vm_compute; reflexivity).
  split; [exact H|].
  destruct (PrintFunctionsTable_one_row_per_entry string_gt m _ _
              string_gt_total H) as [_ Hsize].
  symmetry. exact Hsize.
Defined.

Lemma history_fits_u64 calls :
  (∀ name, is_u64 (sum_times (times_of name calls)) ∧
           is_u64 (N.of_nat (length (times_of name calls)))) →
  Forall (λ c, is_u64 c.2) calls.
Proof.
  intros Hfit. apply Forall_forall. intros [name time] Hin. simpl.
  apply times_of_elem, elem_le_sum_times in Hin.
  destruct (Hfit name) as [Hsum _]. unfold is_u64 in *. lia.
Qed.

(** X11.  For a map filled by [AddFunctionTime] without wrap-around
    (for every name the recorded times add up to less than [2^64] and
    are fewer than [2^64]), printing never divides by zero, and every
    row shows a call count of at least one and an average between its
    minimum and its maximum. *)
Theorem PrintFunctionsTable_of_history
    (tie : string → string → bool) (calls : list (string * N)) :
  (∀ name, is_u64 (sum_times (times_of name calls)) ∧
           is_u64 (N.of_nat (length (times_of name calls)))) →
  (∀ w rows,
     PrintFunctionsTable tie (record_calls calls) ≠ DivisionByZero w rows) ∧
  Forall (λ r, 1 ≤ row_calls r ∧
               row_min_duration r ≤ row_avg_duration r ∧
               row_avg_duration r ≤ row_max_duration r)
    (printed_rows (PrintFunctionsTable tie (record_calls calls))).
Proof.
  intros Hfit. pose proof (history_fits_u64 calls Hfit) as Hu.
  assert (Hinv : ∀ v, v ∈ sorted_list tie (record_calls calls) →
                      stat_invariant v.2).
  { intros [name f] Hv%sorted_list_elem. simpl.
    rewrite (record_calls_lookup _ _ Hu) in Hv.
    destruct (Hfit name) as [Hsum Hlen].
    by apply (summary_invariant (times_of name calls)). }
  unfold PrintFunctionsTable.
  destruct (total_duration_of (sorted_list tie (record_calls calls)) =? 0);
    [split; [done|constructor]|].
  destruct (print_rows_complete
              (total_duration_of (sorted_list tie (record_calls calls)))
              (sorted_list tie (record_calls calls))) as [Hstop _].
  { intros v Hv. destruct (Hinv v Hv) as [Hcount _]. lia. }
  pose proof (print_rows_Forall
    (λ r, 1 ≤ row_calls r ∧ row_min_duration r ≤ row_avg_duration r ∧
          row_avg_duration r ≤ row_max_duration r)
    (total_duration_of (sorted_list tie (record_calls calls)))
    (sorted_list tie (record_calls calls))) as Hrows.
  destruct (print_rows _ _) as [rows stopped]. simpl in *. subst stopped.
  split; [done|]. simpl. apply Hrows.
  intros v Hv _. simpl. exact (Hinv v Hv).
Qed.

Lemma PrintFunctionsTable_of_history_witness :
  let calls :=
    [("clFinish"%string, 7); ("clEnqueueNDRangeKernel"%string, 30);
     ("clFinish"%string, 5)] in
  PrintFunctionsTable string_gt (record_calls calls) =
    TablePrinted 22
      [mkRow "clEnqueueNDRangeKernel" 1 30 42 30 30 30;
       mkRow "clFinish" 2 12 42 6 5 7] ∧
  Forall (λ r, 1 ≤ row_calls r ∧
               row_min_duration r ≤ row_avg_duration r ∧
               row_avg_duration r ≤ row_max_duration r)
    [mkRow "clEnqueueNDRangeKernel" 1 30 42 30 30 30;
     mkRow "clFinish" 2 12 42 6 5 7].
Proof.
  intros calls.
  assert (Hfit : ∀ name, is_u64 (sum_times (times_of name calls)) ∧
                         is_u64 (N.of_nat (length (times_of name calls)))).
  { intros name. unfold times_of, calls. rewrite !filter_cons, filter_nil.
    simpl. repeat case_decide; split; reflexivity. }
  assert (H : PrintFunctionsTable string_gt (record_calls calls) =
    TablePrinted 22
      [mkRow "clEnqueueNDRangeKernel" 1 30 42 30 30 30;
       mkRow "clFinish" 2 12 42 6 5 7]) by (vm_compute; reflexivity).
  split; [exact H|].
  pose proof (proj2 (PrintFunctionsTable_of_history string_gt calls Hfit))
    as Hrows.
  rewrite H in Hrows. exact Hrows.
Defined.

(** * Further properties of the concurrent callers *)

(** X12.  Mutual exclusion: in every state the two threads can reach,
    at most one of them is between the constructor and the destructor
    of its [lock_guard], the mutex is free exactly when both are
    outside, and a thread that is outside cannot take a step while the
    other one is inside. *)
Theorem AddFunctionTime_mutual_exclusion
    (calls1 calls2 : list (string * N)) (schedule : list tid) (st : system) :
  run_schedule schedule (initial calls1 calls2) = Some st →
  inside (thread1 st) && inside (thread2 st) = false ∧
  (lock_ st = None ↔
   inside (thread1 st) = false ∧ inside (thread2 st) = false) ∧
  (inside (thread2 st) = true → step T1 st = None) ∧
  (inside (thread1 st) = true → step T2 st = None).
Proof.
  intros Hrun.
  destruct (run_schedule_invariant calls1 calls2 schedule _ _
              (initial_invariant calls1 calls2) Hrun) as (Hlock & _ & _).
  destruct st as [m owner [pending1 pc1] [pending2 pc2]].
  unfold lock_invariant, inside, step in *. simpl in *.
  destruct owner as [[]|]; destruct Hlock as [H1 H2];
    (split; [by rewrite H1, H2|]);
    (split; [split; [done|intros [? ?]; congruence]|]);
    split; intros Hin; try congruence.
  - destruct pc2; try discriminate. by destruct pending2.
  - destruct pc1; try discriminate. by destruct pending1.
Qed.

Lemma AddFunctionTime_mutual_exclusion_witness :
  ∃ st,
    run_schedule [T1; T1; T1]
      (initial [("kernelA"%string, 100)] [("kernelA"%string, 300)]) = Some st ∧
    inside (thread1 st) = true ∧ inside (thread2 st) = false ∧
    step T2 st = None.
Proof.
  eexists. split; [reflexivity|].
  split; [reflexivity|]. split; [reflexivity|].
  refine (proj2 (proj2 (proj2
    (AddFunctionTime_mutual_exclusion [("kernelA"%string, 100)]
       [("kernelA"%string, 300)] [T1; T1; T1] _ eq_refl))) eq_refl).
Defined.

(** X13.  Linearisation: for any calls of the two threads with 64-bit
    times and any schedule that runs both to the end, the map is the
    one a single thread leaves that makes the calls of the first thread
    and then those of the second. *)
Theorem concurrent_calls_linearisable
    (calls1 calls2 : list (string * N)) (schedule : list tid) (st : system) :
  Forall (λ c, is_u64 c.2) (calls1 ++ calls2) →
  run_schedule schedule (initial calls1 calls2) = Some st →
  finished st = true →
  function_info_map_ st = record_calls (calls1 ++ calls2).
Proof.
  intros Hu Hrun Hfinished. apply map_eq. intros name.
  rewrite (run_schedule_lookup calls1 calls2 schedule st name Hu Hrun
             Hfinished).
  symmetry. by apply record_calls_lookup.
Qed.

Lemma concurrent_calls_linearisable_witness :
  ∃ st,
    run_schedule [T2; T2; T2; T2; T1; T1; T1; T1; T2; T2; T2; T2]
      (initial [("clFinish"%string, 5)]
               [("clFlush"%string, 3); ("clFinish"%string, 9)]) = Some st ∧
    finished st = true ∧
    function_info_map_ st =
      record_calls [("clFinish"%string, 5); ("clFlush"%string, 3);
                    ("clFinish"%string, 9)].
Proof.
  destruct (run_schedule [T2; T2; T2; T2; T1; T1; T1; T1; T2; T2; T2; T2]
              (initial [("clFinish"%string, 5)]
                       [("clFlush"%string, 3); ("clFinish"%string, 9)]))
    as [st|] eqn:Hrun.
  - exists st.
    assert (Hfinished : finished st = true).
    { vm_compute in Hrun. by injection Hrun as <-. }
    split; [reflexivity|]. split; [exact Hfinished|].
    apply (concurrent_calls_linearisable [("clFinish"%string, 5)]
             [("clFlush"%string, 3); ("clFinish"%string, 9)]
             [T2; T2; T2; T2; T1; T1; T1; T1; T2; T2; T2; T2] st);
      [repeat constructor|exact Hrun|exact Hfinished].
  - vm_compute in Hrun. discriminate Hrun.
Defined.

Lemma step_remaining i st st' :
  step i st = Some st' →
  (remaining_steps (thread1 st) + remaining_steps (thread2 st) =
   S (remaining_steps (thread1 st') + remaining_steps (thread2 st')))%nat.
Proof.
  destruct st as [m owner [pending1 pc1] [pending2 pc2]].
  unfold step, remaining_steps. destruct i; simpl.
  - destruct pc1 as [| |seen|]; destruct pending1 as [|[name time] rest];
      try discriminate; try (destruct owner; [discriminate|]);
      intros [= <-]; simpl; lia.
  - destruct pc2 as [| |seen|]; destruct pending2 as [|[name time] rest];
      try discriminate; try (destruct owner; [discriminate|]);
      intros [= <-]; simpl; lia.
Qed.

Lemma run_schedule_remaining schedule st st' :
  run_schedule schedule st = Some st' →
  (remaining_steps (thread1 st) + remaining_steps (thread2 st) =
   length schedule +
   (remaining_steps (thread1 st') + remaining_steps (thread2 st')))%nat.
Proof.
  revert st. induction schedule as [|i schedule IH]; intros st; simpl.
  - by intros [= <-].
  - destruct (step i st) as [st1|] eqn:Hstep; [|discriminate].
    intros Hrun. rewrite (step_remaining i st st1 Hstep), (IH st1 Hrun). lia.
Qed.

(** X14.  No schedule runs forever: a schedule of the two threads has
    at most four steps per call, and one that runs both threads to the
    end has exactly [4 * (n1 + n2)] steps, where [n1] and [n2] are the
    numbers of calls of the two threads. *)
Theorem schedule_length
    (calls1 calls2 : list (string * N)) (schedule : list tid) (st : system) :
  run_schedule schedule (initial calls1 calls2) = Some st →
  (length schedule ≤ 4 * (length calls1 + length calls2))%nat ∧
  (finished st = true →
   length schedule = (4 * (length calls1 + length calls2))%nat).
Proof.
  intros Hrun. pose proof (run_schedule_remaining _ _ _ Hrun) as Hlen.
  assert (Hinit :
    (remaining_steps (thread1 (initial calls1 calls2)) +
     remaining_steps (thread2 (initial calls1 calls2)) =
     4 * (length calls1 + length calls2))%nat).
  { unfold initial, remaining_steps. simpl. lia. }
  rewrite Hinit in Hlen. clear Hinit.
  split; [lia|].
  destruct st as [m owner [pending1 pc1] [pending2 pc2]].
  unfold finished, thread_finished, remaining_steps in *. simpl in *.
  destruct pending1; [|discriminate]. destruct pc1; try discriminate.
  destruct pending2; [|discriminate]. destruct pc2; try discriminate.
  intros _. simpl in Hlen. lia.
Qed.

Lemma schedule_length_witness :
  ∃ st,
    run_schedule [T2; T2; T2; T2; T1; T1; T1; T1; T2; T2; T2; T2]
      (initial [("clFinish"%string, 5)]
               [("clFlush"%string, 3); ("clFinish"%string, 9)]) = Some st ∧
    finished st = true ∧
    length [T2; T2; T2; T2; T1; T1; T1; T1; T2; T2; T2; T2] = 12%nat.
Proof.
  destruct (run_schedule [T2; T2; T2; T2; T1; T1; T1; T1; T2; T2; T2; T2]
              (initial [("clFinish"%string, 5)]
                       [("clFlush"%string, 3); ("clFinish"%string, 9)]))
    as [st|] eqn:Hrun.
  - exists st.
    assert (Hfinished : finished st = true).
    { vm_compute in Hrun. by injection Hrun as <-. }
    split; [reflexivity|]. split; [exact Hfinished|].
    exact (proj2 (schedule_length [("clFinish"%string, 5)]
             [("clFlush"%string, 3); ("clFinish"%string, 9)]
             [T2; T2; T2; T2; T1; T1; T1; T1; T2; T2; T2; T2] st Hrun)
             Hfinished).
  - vm_compute in Hrun. discriminate Hrun.
Defined.

(** * Properties of the loops of the fixture *)

Lemma count_kind_cons kind k kinds :
  count_kind kind (k :: kinds) =
    ((if view_kind_eqb k kind then 1 else 0) + count_kind kind kinds)%nat.
Proof.
  unfold count_kind. rewrite filter_cons.
  case_decide as Hk.
  - by rewrite Hk.
  - by destruct (view_kind_eqb k kind).
Qed.

Lemma foldl_count_record kinds :
  ∀ c,
    foldl (λ c kind, count_record kind c) c kinds =
      mkCounters
        (total_records c + N.of_nat (length kinds))
        (number_of_memory_copies c +
         N.of_nat (count_kind PTI_VIEW_DEVICE_GPU_MEM_COPY kinds))
        (number_of_kernel c +
         N.of_nat (count_kind PTI_VIEW_DEVICE_GPU_KERNEL kinds))
        (number_of_overhead c +
         N.of_nat (count_kind PTI_VIEW_COLLECTION_OVERHEAD kinds)).
Proof.
  induction kinds as [|k kinds IH]; intros c.
  - destruct c. simpl. f_equal; unfold count_kind; simpl; lia.
  - cbn [foldl]. rewrite IH, !count_kind_cons.
    destruct k, c; simpl; f_equal; lia.
Qed.

Lemma encode_records_drain L kinds fuel :
  layout_ok L → (length kinds < fuel)%nat →
  drain fuel L (Some (encode_records L kinds))
      (buffer_size (encode_records L kinds)) iterator_start =
    Some (views_from L 0 kinds, PTI_STATUS_END_OF_BUFFER,
          mkIterator (buffer_size (encode_records L kinds))
            (last (views_from L 0 kinds))).
Proof.
  intros HL Hfuel.
  pose proof (drain_records L kinds HL [] iterator_start fuel eq_refl Hfuel)
    as Hdrain.
  rewrite app_nil_l in Hdrain. rewrite Hdrain. cbn [cursor current_record
    iterator_start]. by destruct (last (views_from L 0 kinds)).
Qed.

(** X15.  The loop of [RegularParseRecordsTest] on a buffer that holds
    any sequence of records, in any layout, is left through
    [PTI_STATUS_END_OF_BUFFER] and never through [FAIL()]; by then
    [total_records] is the number of records and the three other
    counters are the numbers of memory-copy, kernel and overhead
    records.  One iteration more than there are records is enough. *)
Theorem parse_loop_counts (L : layout) (kinds : list pti_view_kind)
    (fuel : nat) :
  layout_ok L → (length kinds < fuel)%nat →
  parse_loop fuel L (encode_records L kinds) iterator_start
      (mkCounters 0 0 0 0) =
    Some (LoopLeft
            (mkCounters (N.of_nat (length kinds))
               (N.of_nat (count_kind PTI_VIEW_DEVICE_GPU_MEM_COPY kinds))
               (N.of_nat (count_kind PTI_VIEW_DEVICE_GPU_KERNEL kinds))
               (N.of_nat (count_kind PTI_VIEW_COLLECTION_OVERHEAD kinds)))).
Proof.
  intros HL Hfuel.
  rewrite (parse_loop_drain _ _ _ _ _ _ _
             (encode_records_drain L kinds fuel HL Hfuel)).
  by rewrite views_from_kinds, foldl_count_record.
Qed.

Lemma parse_loop_counts_witness :
  parse_loop 4 sample_layout
    (encode_records sample_layout
       [PTI_VIEW_DEVICE_GPU_MEM_COPY; PTI_VIEW_DEVICE_GPU_KERNEL;
        PTI_VIEW_DEVICE_GPU_MEM_COPY])
    iterator_start (mkCounters 0 0 0 0) =
  Some (LoopLeft (mkCounters 3 2 1 0)).
Proof.
  apply (parse_loop_counts sample_layout
           [PTI_VIEW_DEVICE_GPU_MEM_COPY; PTI_VIEW_DEVICE_GPU_KERNEL;
            PTI_VIEW_DEVICE_GPU_MEM_COPY] 4 sample_layout_ok).
  simpl. lia.
Defined.

Lemma completed_loop_drain L buf size fuel :
  ∀ it g views it',
    drain fuel L buf size it = Some (views, PTI_STATUS_END_OF_BUFFER, it') →
    completed_loop fuel L buf size it g =
      Some (foldl (λ g kind, switch_view_kind kind g) g (view_kind <$> views)).
Proof.
  induction fuel as [|fuel IH]; intros it g views it'; [discriminate|].
  cbn [drain completed_loop].
  destruct (ptiViewGetNextRecord L buf size (Some it))
    as [[] [next|]]; try (intros [= <- <-]; reflexivity); try discriminate.
  destruct (current_record next) as [view|]; [|discriminate].
  destruct (drain fuel L buf size next)
    as [[[views' status] it'']|] eqn:Hdrain; [|discriminate].
  intros [= <- -> <-]. rewrite fmap_cons. cbn [foldl].
  by apply (IH next _ views' it'').
Qed.

Lemma foldl_switch_view_kind kinds :
  ∀ g,
    is_u64 (memory_view_record_count g) →
    is_u64 (kernel_view_record_count g) →
    let g' := foldl (λ g kind, switch_view_kind kind g) g kinds in
    requested_buffer_calls g' = requested_buffer_calls g ∧
    rejected_buffer_calls g' = rejected_buffer_calls g ∧
    completed_buffer_calls g' = completed_buffer_calls g ∧
    completed_buffer_used_bytes g' = completed_buffer_used_bytes g ∧
    memory_view_record_count g' =
      wrap64 (memory_view_record_count g +
              N.of_nat (count_kind PTI_VIEW_DEVICE_GPU_MEM_COPY kinds +
                        count_kind PTI_VIEW_DEVICE_GPU_MEM_FILL kinds)) ∧
    kernel_view_record_count g' =
      wrap64 (kernel_view_record_count g +
              N.of_nat (count_kind PTI_VIEW_DEVICE_GPU_KERNEL kinds)) ∧
    memory_view_record_created g' =
      memory_view_record_created g ||
      negb (Nat.eqb (count_kind PTI_VIEW_DEVICE_GPU_MEM_COPY kinds +
                     count_kind PTI_VIEW_DEVICE_GPU_MEM_FILL kinds) 0) ∧
    kernel_view_record_created g' =
      kernel_view_record_created g ||
      negb (Nat.eqb (count_kind PTI_VIEW_DEVICE_GPU_KERNEL kinds) 0).
Proof.
  induction kinds as [|k kinds IH]; intros g Hm Hk.
  - simpl. unfold count_kind. simpl. rewrite !N.add_0_r, !orb_false_r.
    by rewrite !wrap64_small.
  - cbn [foldl]. cbv zeta in *.
    destruct (IH (switch_view_kind k g)) as (-> & -> & -> & -> & -> & -> & -> & ->).
    { destruct k; simpl; try exact Hm. all: apply N.mod_upper_bound; discriminate. }
    { destruct k; simpl; try exact Hk. apply N.mod_upper_bound; discriminate. }
    rewrite !count_kind_cons.
    destruct k; simpl; rewrite ?Nat.add_succ_r; simpl;
      rewrite ?wrap64_add_l, ?orb_true_r;
      repeat split; try reflexivity; f_equal; lia.
Qed.

Lemma encode_records_size L kinds :
  layout_ok L → kinds ≠ [] → buffer_size (encode_records L kinds) ≠ 0.
Proof.
  intros HL Hne. destruct kinds as [|k kinds]; [done|].
  rewrite encode_records_cons. unfold buffer_size.
  rewrite length_app, (record_bytes_length L k HL).
  pose proof (header_size_pos L HL). pose proof (sizeof_record_header L HL k).
  lia.
Qed.

(** X16.  [BufferCompleted] on a delivered buffer that holds any
    non-empty sequence of records: the delivery is counted once and its
    size noted, the memory counter grows by the number of memory-copy
    and memory-fill records and the kernel counter by the number of
    kernel records (modulo [2^64]), each flag is raised exactly if it
    was up or such a record came, and the request counters are not
    touched.  A delivery with [used_bytes = 0] or a null buffer is only
    reported as empty: no record is read and no counter changes. *)
Theorem BufferCompleted_counts (L : layout) (kinds : list pti_view_kind)
    (fuel : nat) (buf_size : N) (g : fixture_globals) :
  layout_ok L → kinds ≠ [] → buf_size ≠ 0 → (length kinds < fuel)%nat →
  is_u64 (memory_view_record_count g) →
  is_u64 (kernel_view_record_count g) →
  (∃ g',
     BufferCompleted fuel L (Some (encode_records L kinds)) buf_size
       (buffer_size (encode_records L kinds)) g = Some g' ∧
     completed_buffer_calls g' = wrap64 (completed_buffer_calls g + 1) ∧
     completed_buffer_used_bytes g' = buffer_size (encode_records L kinds) ∧
     memory_view_record_count g' =
       wrap64 (memory_view_record_count g +
               N.of_nat (count_kind PTI_VIEW_DEVICE_GPU_MEM_COPY kinds +
                         count_kind PTI_VIEW_DEVICE_GPU_MEM_FILL kinds)) ∧
     kernel_view_record_count g' =
       wrap64 (kernel_view_record_count g +
               N.of_nat (count_kind PTI_VIEW_DEVICE_GPU_KERNEL kinds)) ∧
     memory_view_record_created g' =
       memory_view_record_created g ||
       negb (Nat.eqb (count_kind PTI_VIEW_DEVICE_GPU_MEM_COPY kinds +
                      count_kind PTI_VIEW_DEVICE_GPU_MEM_FILL kinds) 0) ∧
     kernel_view_record_created g' =
       kernel_view_record_created g ||
       negb (Nat.eqb (count_kind PTI_VIEW_DEVICE_GPU_KERNEL kinds) 0) ∧
     requested_buffer_calls g' = requested_buffer_calls g ∧
     rejected_buffer_calls g' = rejected_buffer_calls g) ∧
  BufferCompleted fuel L (Some (encode_records L kinds)) buf_size 0 g =
    Some (print_line "Received empty buffer" g) ∧
  BufferCompleted fuel L None buf_size
      (buffer_size (encode_records L kinds)) g =
    Some (print_line "Received empty buffer" g).
Proof.
  intros HL Hkinds Hsize Hfuel Hm Hk. split; [|split; reflexivity].
  unfold BufferCompleted.
  destruct (N.eqb_spec (buffer_size (encode_records L kinds)) 0) as [Hz|_].
  { by destruct (encode_records_size L kinds HL Hkinds). }
  destruct (N.eqb_spec buf_size 0) as [|_]; [done|]. simpl.
  rewrite (completed_loop_drain _ _ _ _ _ _ _ _
             (encode_records_drain L kinds fuel HL Hfuel)).
  rewrite views_from_kinds. eexists. split; [reflexivity|].
  match goal with
  | |- context [foldl _ ?g0 kinds] =>
      destruct (foldl_switch_view_kind kinds g0 Hm Hk)
        as (Hreq & Hrej & Hcalls & Hused & Hmem & Hker & Hmc & Hkc)
  end.
  cbv zeta in *. simpl in *.
  by rewrite Hreq, Hrej, Hcalls, Hused, Hmem, Hker, Hmc, Hkc.
Qed.

Lemma BufferCompleted_counts_witness :
  BufferCompleted 4 sample_layout
    (Some (encode_records sample_layout
             [PTI_VIEW_DEVICE_GPU_MEM_COPY; PTI_VIEW_DEVICE_GPU_KERNEL;
              PTI_VIEW_DEVICE_GPU_MEM_FILL]))
    424 424 (mkGlobals 1 0 0 0 false false 0 0 []) =
  Some (mkGlobals 1 0 1 424 true true 2 1 []).
Proof.
  destruct (BufferCompleted_counts sample_layout
              [PTI_VIEW_DEVICE_GPU_MEM_COPY; PTI_VIEW_DEVICE_GPU_KERNEL;
               PTI_VIEW_DEVICE_GPU_MEM_FILL] 4 424
              (mkGlobals 1 0 0 0 false false 0 0 []) sample_layout_ok)
    as [(g' & Hrun & _) _];
    [discriminate|discriminate|simpl; lia|reflexivity|reflexivity|].
  change (buffer_size (encode_records sample_layout
            [PTI_VIEW_DEVICE_GPU_MEM_COPY; PTI_VIEW_DEVICE_GPU_KERNEL;
             PTI_VIEW_DEVICE_GPU_MEM_FILL])) with 424 in Hrun.
  rewrite Hrun. vm_compute in Hrun. exact (eq_sym Hrun).
Defined.

Lemma next_record_keeps L buf size it status record :
  ptiViewGetNextRecord L buf size (Some it) = (status, record) →
  status ≠ PTI_SUCCESS → record = Some it.
Proof.
  unfold ptiViewGetNextRecord. destruct buf as [bytes|]; [|by intros [= <- <-]].
  destruct (cursor it =? size); [by intros [= <- <-]|].
  destruct (size <? cursor it + header_size L); [by intros [= <- <-]|].
  destruct (read_header L _) as [[kind|] struct_size];
    [|by intros [= <- <-]].
  destruct (_ || _); [by intros [= <- <-]|].
  by intros [= <- <-] Hne.
Qed.

Lemma end_test_loop_drain L bytes fuel :
  ∀ it total views it',
    drain fuel L (Some bytes) (buffer_size bytes) it =
      Some (views, PTI_STATUS_END_OF_BUFFER, it') →
    is_u64 total →
    end_test_loop fuel L bytes it total =
      Some (wrap64 (total + N.of_nat (length views)), it').
Proof.
  induction fuel as [|fuel IH]; intros it total views it'; [discriminate|].
  cbn [drain end_test_loop].
  destruct (ptiViewGetNextRecord L (Some bytes) (buffer_size bytes) (Some it))
    as [status record] eqn:Hnext.
  destruct status.
  - destruct record as [next|]; [|discriminate].
    destruct (current_record next) as [view|]; [|discriminate].
    destruct (drain fuel L (Some bytes) (buffer_size bytes) next)
      as [[[views' status] it'']|] eqn:Hdrain; [|discriminate].
    intros [= <- -> <-] Htotal.
    rewrite (IH next _ views' it'' Hdrain)
      by (apply N.mod_upper_bound; discriminate).
    rewrite wrap64_add_l. do 2 f_equal. simpl length. f_equal. lia.
  - apply next_record_keeps in Hnext as ->; [|discriminate].
    intros [= <- <-] Htotal. simpl.
    by rewrite N.add_0_r, wrap64_small.
  - apply next_record_keeps in Hnext as ->; [|discriminate]. discriminate.
  - apply next_record_keeps in Hnext as ->; [|discriminate]. discriminate.
Qed.

(** X17.  [CheckBufferEndTest] on a buffer that holds any sequence of
    records, in any layout: the loop is left with [total_records] equal
    to the number of records (modulo [2^64]), and the call after the
    loop returns [PTI_STATUS_END_OF_BUFFER] again.  [current_record] is
    not null at either point exactly when the buffer holds at least one
    record: on an empty buffer both [EXPECT_NE] of the test fail. *)
Theorem CheckBufferEndTest_observed (L : layout) (kinds : list pti_view_kind)
    (fuel : nat) :
  layout_ok L → (length kinds < fuel)%nat →
  CheckBufferEndTest fuel L (encode_records L kinds) =
    Some (mkEndObserved (wrap64 (N.of_nat (length kinds)))
            (bool_decide (kinds ≠ [])) PTI_STATUS_END_OF_BUFFER
            (bool_decide (kinds ≠ []))).
Proof.
  intros HL Hfuel. unfold CheckBufferEndTest.
  rewrite (end_test_loop_drain _ _ _ _ _ _ _
             (encode_records_drain L kinds fuel HL Hfuel))
    by reflexivity.
  rewrite next_at_end by reflexivity.
  rewrite N.add_0_l, <- (length_fmap view_kind), views_from_kinds.
  assert (Hnull : record_not_null
      (Some (mkIterator (buffer_size (encode_records L kinds))
               (last (views_from L 0 kinds)))) = bool_decide (kinds ≠ [])).
  { unfold record_not_null. cbn [current_record].
    destruct kinds as [|k kinds].
    - by rewrite bool_decide_false, bool_decide_false by (by intros []).
    - rewrite !bool_decide_true; [done..|].
      cbn [views_from]. rewrite last_cons.
      destruct (last _); eauto. }
  by rewrite Hnull.
Qed.

Lemma CheckBufferEndTest_observed_witness :
  CheckBufferEndTest 3 sample_layout
    (encode_records sample_layout
       [PTI_VIEW_COLLECTION_OVERHEAD; PTI_VIEW_DEVICE_GPU_KERNEL]) =
    Some (mkEndObserved 2 true PTI_STATUS_END_OF_BUFFER true) ∧
  CheckBufferEndTest 1 sample_layout (encode_records sample_layout []) =
    Some (mkEndObserved 0 false PTI_STATUS_END_OF_BUFFER false).
Proof.
  split.
  - apply (CheckBufferEndTest_observed sample_layout
             [PTI_VIEW_COLLECTION_OVERHEAD; PTI_VIEW_DEVICE_GPU_KERNEL] 3
             sample_layout_ok). simpl. lia.
  - apply (CheckBufferEndTest_observed sample_layout [] 1 sample_layout_ok).
    simpl. lia.
Defined.

(** * The statistics over time and over the whole map *)

(** X18.  Further calls only widen the range of an entry: whatever
    calls follow, the entry of a name stays, its [min_time] does not
    grow and its [max_time] does not shrink. *)
Theorem record_calls_range_widens (calls more : list (string * N))
    (name : string) (f : Function) :
  Forall (λ c, is_u64 c.2) (calls ++ more) →
  record_calls calls !! name = Some f →
  ∃ f', record_calls (calls ++ more) !! name = Some f' ∧
        min_time f' ≤ min_time f ∧ max_time f ≤ max_time f'.
Proof.
  intros Hu Hf. pose proof Hu as Hu'. rewrite Forall_app in Hu'.
  destruct Hu' as [Hcalls _].
  rewrite (record_calls_lookup _ _ Hcalls) in Hf.
  rewrite (record_calls_lookup _ _ Hu), times_of_app.
  destruct (times_of name calls) as [|t ts]; [discriminate|].
  injection Hf as <-.
  change ((t :: ts) ++ times_of name more)
    with (t :: (ts ++ times_of name more)).
  cbn [summary]. eexists. split; [reflexivity|].
  cbn [min_time max_time]. rewrite !foldl_app.
  split; [apply foldl_min_le_init|apply foldl_max_ge_init].
Qed.

Lemma record_calls_range_widens_witness :
  let calls := [("clFinish"%string, 7)] in
  let more := [("clFlush"%string, 1); ("clFinish"%string, 5);
               ("clFinish"%string, 9)] in
  record_calls calls !! "clFinish"%string = Some (mkFunction 7 7 7 1) ∧
  ∃ f', record_calls (calls ++ more) !! "clFinish"%string = Some f' ∧
        min_time f' ≤ 7 ∧ 7 ≤ max_time f'.
Proof.
  intros calls more.
  assert (Hf : record_calls calls !! "clFinish"%string =
               Some (mkFunction 7 7 7 1)) by reflexivity.
  split; [exact Hf|].
  apply (record_calls_range_widens calls more "clFinish"
           (mkFunction 7 7 7 1)); [|exact Hf].
  repeat constructor.
Defined.

Lemma map_total_insert name f (m : gmap string Function) :
  m !! name = None →
  sum_times ((λ v : string * Function, total_time v.2) <$>
               map_to_list (<[name := f]> m)) =
    total_time f +
    sum_times ((λ v : string * Function, total_time v.2) <$> map_to_list m).
Proof.
  intros Hnone.
  rewrite (sum_times_Permutation _ _
             (fmap_Permutation _ _ _ (map_to_list_insert m name f Hnone))).
  reflexivity.
Qed.

Lemma AddFunctionTime_map_total name time (m : gmap string Function) :
  wrap64 (sum_times ((λ v : string * Function, total_time v.2) <$>
                       map_to_list (AddFunctionTime name time m))) =
    wrap64 (sum_times ((λ v : string * Function, total_time v.2) <$>
                         map_to_list m) + time).
Proof.
  rewrite AddFunctionTime_read_write. unfold write_back.
  destruct (m !! name) as [f|] eqn:Hf.
  - rewrite <- (insert_delete_eq m name (accumulate f time)).
    rewrite <- (insert_delete_id m name f Hf) at 2.
    rewrite !map_total_insert by apply lookup_delete_eq.
    unfold accumulate. cbn [total_time].
    rewrite wrap64_add_l. f_equal. lia.
  - rewrite map_total_insert by exact Hf. cbn [total_time]. f_equal. lia.
Qed.

Lemma record_calls_map_total calls :
  wrap64 (sum_times ((λ v : string * Function, total_time v.2) <$>
                       map_to_list (record_calls calls))) =
    wrap64 (sum_times calls.*2).
Proof.
  induction calls as [|[name time] calls IH] using rev_ind.
  - unfold record_calls. simpl. by rewrite map_to_list_empty.
  - rewrite record_calls_snoc, AddFunctionTime_map_total.
    rewrite <- wrap64_add_l, IH, wrap64_add_l.
    rewrite fmap_app, sum_times_app. simpl. by rewrite N.add_0_r.
Qed.

(** X19.  With a comparator that separates different names, the
    divisor [total_duration] that [PrintFunctionsTable] computes for a
    map filled by [AddFunctionTime] is the sum of the times of all
    recorded calls modulo [2^64]; so nothing is printed exactly when
    that sum is [0] modulo [2^64], for instance when every call took
    0 ns. *)
Theorem PrintFunctionsTable_total_of_history
    (tie : string → string → bool) (calls : list (string * N)) :
  (∀ x y : string, x ≠ y → tie x y = true ∨ tie y x = true) →
  total_duration_of (sorted_list tie (record_calls calls)) =
    wrap64 (sum_times calls.*2) ∧
  (PrintFunctionsTable tie (record_calls calls) = NothingPrinted ↔
   wrap64 (sum_times calls.*2) = 0).
Proof.
  intros Htie.
  assert (Htotal : total_duration_of (sorted_list tie (record_calls calls)) =
                   wrap64 (sum_times calls.*2)).
  { rewrite total_duration_of_sum, <- record_calls_map_total. f_equal.
    apply sum_times_Permutation, fmap_Permutation.
    by apply sorted_list_Permutation. }
  split; [exact Htotal|].
  unfold PrintFunctionsTable. rewrite Htotal.
  destruct (N.eqb_spec (wrap64 (sum_times calls.*2)) 0) as [Hz|Hnz].
  - done.
  - split; [|done]. by destruct (print_rows _ _) as [rows []].
Qed.

Lemma PrintFunctionsTable_total_of_history_witness :
  PrintFunctionsTable string_gt
    (record_calls [("clFinish"%string, 0); ("clFlush"%string, 0)]) =
    NothingPrinted ∧
  is_Some (record_calls [("clFinish"%string, 0); ("clFlush"%string, 0)]
             !! "clFinish"%string).
Proof.
  split; [|eexists; reflexivity].
  apply (proj2 (PrintFunctionsTable_total_of_history string_gt
                  [("clFinish"%string, 0); ("clFlush"%string, 0)]
                  string_gt_total)).
  reflexivity.
Defined.
